(** * The command parser of the task manager (parse.c)

    A shallow embedding of [parse.c] and the properties of its
    specification.

    Conventions of the embedding.
    - A [char *] is an [option string]: [None] is the NULL pointer, [Some s]
      points to the characters of [s] followed by the terminating NUL. The
      strings the parser produces never contain the NUL character.
    - [char *argv[]] is an [option (list (option string))]: the list has one
      entry per slot of the caller's array.
    - An access outside an array is undefined behaviour in C; the embedding
      makes it the explicit outcome [Overrun].
    - [int] is 32 bits and [long] 64 bits wide (LP64); the conversion of a
      [long] to [int] wraps modulo 2^32.
    - Heap ownership is not modelled: [string_copy] yields the same text and
      [free] forgets it.
    - [MAXLINE] and [MAXARGS] are macros of headers outside this file; they
      are parameters of the development. *)

From Stdlib Require Import ZArith Ascii String Bool Lia.
From Stdlib Require Import Decimal DecimalString DecimalNat.
From stdpp Require Import base option list strings.

Local Open Scope Z_scope.

(** ** Outcomes of a call *)

Inductive outcome (A : Type) : Type :=
| Done (a : A)
| Overrun.
Arguments Done {A} a.
Arguments Overrun {A}.

#[global] Instance outcome_ret : MRet outcome := fun A a => Done a.
#[global] Instance outcome_bind : MBind outcome := fun A B f m =>
  match m with
  | Done a => f a
  | Overrun => Overrun
  end.

(** ** Characters and the C library *)

Definition NUL : ascii := Ascii.zero.

Definition is_nul (c : ascii) : bool := Ascii.eqb c NUL.

(** [isspace] in the C locale: space, \t, \n, \v, \f, \r. *)
Definition isspace (c : ascii) : bool :=
  let k := nat_of_ascii c in
  Nat.eqb k 32 || (Nat.leb 9 k && Nat.leb k 13).

Definition isdigit (c : ascii) : bool :=
  let k := nat_of_ascii c in
  Nat.leb 48 k && Nat.leb k 57.

Definition digit_value (c : ascii) : Z := Z.of_nat (nat_of_ascii c) - 48.

(** The character at offset [i] of a C string; the terminator past its end. *)
Fixpoint char_at (s : string) (i : nat) : ascii :=
  match s, i with
  | EmptyString, _ => NUL
  | String c _, O => c
  | String _ r, S j => char_at r j
  end.

Fixpoint strlen (s : string) : nat :=
  match s with
  | EmptyString => O
  | String c r => if is_nul c then O else S (strlen r)
  end.

Definition char_diff (ca cb : ascii) : Z :=
  Z.of_nat (nat_of_ascii ca) - Z.of_nat (nat_of_ascii cb).

(** [strncmp a b n]: zero when the first [n] characters agree, the
    comparison stopping at a terminator. *)
Fixpoint strncmp (a b : string) (n : nat) : Z :=
  match n with
  | O => 0
  | S n' =>
      match a, b with
      | String ca a', String cb b' =>
          if Ascii.eqb ca cb then
            if is_nul ca then 0 else strncmp a' b' n'
          else char_diff ca cb
      | _, _ => char_diff (char_at a 0) (char_at b 0)
      end
  end.

(** [count] NUL characters. *)
Fixpoint nul_fill (count : nat) : string :=
  match count with
  | O => EmptyString
  | S k => String NUL (nul_fill k)
  end.

(** [strncpy(dest, src, n)]: the [n] characters written to [dest]. When
    [src] has [n] or more characters before its terminator, no terminator
    is written. *)
Fixpoint strncpy (src : string) (n : nat) {struct n} : string :=
  match n with
  | O => EmptyString
  | S n' =>
      match src with
      | EmptyString => nul_fill n
      | String c src' =>
          if is_nul c then nul_fill n else String c (strncpy src' n')
      end
  end.

Fixpoint in_delim (c : ascii) (delim : string) : bool :=
  match delim with
  | EmptyString => false
  | String d r => Ascii.eqb c d || in_delim c r
  end.

(** The scan of [strtok] for the end of a token. The text is what lies in
    the array from the scanning position to the end of the array; running
    out of it is a read past the array. The result is the token and the
    text at the saved position: after the delimiter that was overwritten
    with a terminator, or at the terminator that ended the token. *)
Fixpoint strtok_scan (s delim : string) : outcome (string * string) :=
  match s with
  | EmptyString => Overrun
  | String c r =>
      if is_nul c then Done (EmptyString, s)
      else if in_delim c delim then Done (EmptyString, r)
      else '(t, save) ← strtok_scan r delim; Done (String c t, save)
  end.

(** [strtok]: skip the leading delimiters, then scan one token. [None] is
    the NULL result. The first call of a sequence is given the array, the
    later calls ([strtok(NULL, delim)]) the saved position. *)
Fixpoint strtok (s delim : string) : outcome (option (string * string)) :=
  match s with
  | EmptyString => Overrun
  | String c r =>
      if is_nul c then Done None
      else if in_delim c delim then strtok r delim
      else '(t, save) ← strtok_scan r delim; Done (Some (String c t, save))
  end.

(** *** [strtol] in base 10 *)

Definition LONG_MAX : Z := 2 ^ 63 - 1.
Definition LONG_MIN : Z := - 2 ^ 63.

Definition clamp_long (v : Z) : Z :=
  if v <? LONG_MIN then LONG_MIN
  else if LONG_MAX <? v then LONG_MAX
  else v.

(** The narrowing conversion [(int) v] of a [long]. *)
Definition int_of_long (v : Z) : Z := (v + 2 ^ 31) mod 2 ^ 32 - 2 ^ 31.

Fixpoint skip_isspace (s : string) : nat :=
  match s with
  | String c r => if isspace c then S (skip_isspace r) else O
  | EmptyString => O
  end.

Fixpoint string_drop (k : nat) (s : string) : string :=
  match k, s with
  | O, _ => s
  | S j, String _ r => string_drop j r
  | S _, EmptyString => EmptyString
  end.

(** The digits at the front of [s]: their value on top of [acc], and how
    many there are. *)
Fixpoint read_digits (s : string) (acc : Z) : Z * nat :=
  match s with
  | String c r =>
      if isdigit c then
        let '(v, k) := read_digits r (acc * 10 + digit_value c) in (v, S k)
      else (acc, O)
  | EmptyString => (acc, O)
  end.

(** [strtol(s, &end, 10)]: the value and the offset of [end] from [s].
    Without a digit there is no conversion: the value is 0 and [end] is
    [s]. A value outside of [long] is clamped. *)
Definition strtol (s : string) : Z * nat :=
  let ws := skip_isspace s in
  let s1 := string_drop ws s in
  let neg := Ascii.eqb (char_at s1 0) "-" in
  let sg := if neg || Ascii.eqb (char_at s1 0) "+" then 1%nat else O in
  let '(v, k) := read_digits (string_drop sg s1) 0 in
  match k with
  | O => (0, O)
  | _ => (clamp_long (if neg then - v else v), (ws + sg + k)%nat)
  end.

(** ** Arrays of string pointers *)

Abbreviation slots := (list (option string)).

(** [argv[i]] as an rvalue. *)
Definition load (argv : slots) (i : nat) : outcome (option string) :=
  match argv !! i with
  | Some p => Done p
  | None => Overrun
  end.

(** [argv[i] = p]. *)
Definition store (argv : slots) (i : nat) (p : option string) : outcome slots :=
  if decide (i < length argv)%nat then Done (<[i := p]> argv) else Overrun.

(** ** Helpers of util.c *)

(** Modelled from the spec: [string_copy] of util.c is not part of the
    sources at hand. Each token and field is "independently owned-copied":
    the copy has the text of the original. *)
Definition string_copy (p : option string) : option string := p.

(** Modelled from the spec: [free_argv_str] of util.c is not part of the
    sources at hand. Release "frees every owned token and resets each slot
    to empty". *)
Definition free_argv_str (argv : slots) : slots := (fun _ => None) <$> argv.

(** ** parse.c *)

Record Instruction : Type := mkInstruction {
  instruct : option string;
  id : Z;
  file : option string
}.

(** *** Reference data *)

Definition instructs_list_full : list string :=
  ["help"; "quit"; "tasks"; "delete"; "run"; "bg"; "cancel"; "log";
   "output"; "suspend"; "resume"].

Definition instructs_with_id : list string :=
  ["delete"; "run"; "bg"; "cancel"; "log"; "output"; "suspend"; "resume"].

Definition instructs_with_file : list string := ["run"; "bg"; "log"].

(** *** Helper functions *)

(** The loop of [contains] over a table; the end of the list is the NULL
    that ends the array. *)
Fixpoint contains_from (needle : string) (haystack : list string) : bool :=
  match haystack with
  | [] => false
  | h :: rest =>
      if strncmp needle h (strlen h + 1) =? 0 then true
      else contains_from needle rest
  end.

Definition contains (needle : option string) (haystack : list string) : bool :=
  match needle with
  | None => false
  | Some s => contains_from s haystack
  end.

(** [parse_id_token(p_tok, instruct, id)]: the returned truth value and the
    integer [id] points to afterwards. *)
Definition parse_id_token (p_tok instruct : option string) (id : option Z)
  : bool * option Z :=
  match p_tok, instruct, id with
  | Some tok, Some _, Some _ =>
      if negb (contains instruct instructs_with_id) then (false, id)
      else
        let '(v, e) := strtol tok in
        if negb (is_nul (char_at tok e)) || Nat.eqb e 0
        then (false, Some 0)
        else (true, Some (int_of_long v))
  | _, _, _ => (false, id)
  end.

(** [parse_file_token(p_tok, instruct, file)]: the returned truth value and
    the pointer [file] points to afterwards. *)
Definition parse_file_token (p_tok instruct : option string)
    (file : option (option string)) : bool * option (option string) :=
  match p_tok, instruct, file with
  | Some _, Some _, Some _ =>
      if negb (contains instruct instructs_with_file) then (false, file)
      else (true, Some (string_copy p_tok))
  | _, _, _ => (false, file)
  end.

(** *** String processing helpers *)

Fixpoint is_whitespace_from (s : string) : bool :=
  match s with
  | EmptyString => true
  | String c r => if isspace c then is_whitespace_from r else is_nul c
  end.

Definition is_whitespace (str : option string) : bool :=
  match str with
  | None => true
  | Some s => is_whitespace_from s
  end.

(** *** Initialization and release *)

Definition initialize_instruction (inst : option Instruction)
  : bool * option Instruction :=
  match inst with
  | None => (false, None)
  | Some _ => (true, Some (mkInstruction None 0 None))
  end.

(** [for (i = ..; i < n; i++) argv[i] = NULL] with [count] rounds to go. *)
Fixpoint clear_slots (count i : nat) (argv : slots) : outcome slots :=
  match count with
  | O => Done argv
  | S k => argv' ← store argv i None; clear_slots k (S i) argv'
  end.

Definition initialize_argv_n (argv : option slots) (n : nat)
  : outcome (bool * option slots) :=
  match argv with
  | None => Done (false, None)
  | Some a => a' ← clear_slots n O a; Done (true, Some a')
  end.

Definition free_instruction (inst : option Instruction) : option Instruction :=
  match inst with
  | None => None
  | Some i => Some (mkInstruction None (id i) None)
  end.

Section Parse.

(** The macros of the headers: the size of the scratch line and the
    capacity of the token buffer. [MAXARGS] is at least 1 ([MAXARGS - 1] is
    computed in [size_t]). *)
Variables MAXLINE MAXARGS : nat.

Definition initialize_argv (argv : option slots) : outcome (bool * option slots) :=
  initialize_argv_n argv MAXARGS.

(** The [while] loop of [parse_n]. [room] is [n - (index + 1)]: once the
    token is stored and [index] incremented, [index >= n] reads
    [room = 0]. [strtok] is called before that test. *)
Fixpoint store_tokens (room : nat) (p_tok save : string) (index : nat)
    (argv : slots) : outcome slots :=
  argv' ← store argv index (string_copy (Some p_tok));
  next ← strtok save " ";
  match next, room with
  | Some (t, save'), S room' => store_tokens room' t save' (S index) argv'
  | _, _ => Done argv'
  end.

Definition parse_n (cmd_line : option string) (inst : option Instruction)
    (argv : option slots) (n : nat)
  : outcome (option Instruction * option slots) :=
  match cmd_line, inst, argv with
  | Some line, Some _, Some av =>
      let inst0 := mkInstruction None 0 None in
      let buffer := strncpy line MAXLINE in
      first ← strtok buffer " ";
      match first with
      | None => Done (Some inst0, Some av)
      | Some (p_tok, save) =>
          av ← store_tokens (n - 1) p_tok save O av;
          a0 ← load av 0;
          let inst1 := mkInstruction (string_copy a0) (id inst0) (file inst0) in
          a1 ← load av 1;
          let '(_, idp) := parse_id_token a1 (instruct inst1) (Some (id inst1)) in
          let inst2 :=
            mkInstruction (instruct inst1) (default (id inst1) idp) (file inst1) in
          a2 ← load av 2;
          let '(_, filep) :=
            parse_file_token a2 (instruct inst2) (Some (file inst2)) in
          let inst3 :=
            mkInstruction (instruct inst2) (id inst2) (default (file inst2) filep) in
          if contains (instruct inst3) instructs_list_full
          then Done (Some inst3, Some (free_argv_str av))
          else Done (Some inst3, Some av)
      end
  | _, _, _ => Done (inst, argv)
  end.

Definition parse (cmd_line : option string) (inst : option Instruction)
    (argv : option slots) : outcome (option Instruction * option slots) :=
  '(_, argv) ← initialize_argv_n argv MAXARGS;
  parse_n cmd_line inst argv (MAXARGS - 1).

End Parse.

(** ** The vocabulary of the specification *)

(** The C string a [char *] points to: the characters before the first
    NUL. *)
Fixpoint c_string (s : string) : string :=
  match s with
  | EmptyString => EmptyString
  | String c r => if is_nul c then EmptyString else String c (c_string r)
  end.

Fixpoint no_nul (s : string) : bool :=
  match s with
  | EmptyString => true
  | String c r => negb (is_nul c) && no_nul r
  end.

(** Splitting on the space character: the fields between the spaces, the
    empty ones included. *)
Fixpoint fields (s : string) : list string :=
  match s with
  | EmptyString => [EmptyString]
  | String c r =>
      if Ascii.eqb c " " then EmptyString :: fields r
      else
        match fields r with
        | h :: t => String c h :: t
        | [] => [String c EmptyString]
        end
  end.

Definition nonempty (s : string) : bool :=
  match s with
  | EmptyString => false
  | String _ _ => true
  end.

(** The tokens of a line: its non-empty fields, in order. *)
Definition tokens (s : string) : list string := List.filter nonempty (fields s).

Definition line_tokens (line : string) : list string := tokens (c_string line).

(** The characters of a string up to its first space, and what follows
    that space. *)
Fixpoint word (s : string) : string :=
  match s with
  | EmptyString => EmptyString
  | String c r => if Ascii.eqb c " " then EmptyString else String c (word r)
  end.

Fixpoint after_word (s : string) : string :=
  match s with
  | EmptyString => EmptyString
  | String c r => if Ascii.eqb c " " then r else after_word r
  end.

Fixpoint all_digits (s : string) : bool :=
  match s with
  | EmptyString => true
  | String c r => isdigit c && all_digits r
  end.

(** A base-10 integer written with the whole string: an optional sign and
    at least one digit, nothing else. *)
Definition decimal_literal (s : string) : bool :=
  match s with
  | String c r =>
      if Ascii.eqb c "+" || Ascii.eqb c "-" then nonempty r && all_digits r
      else all_digits s
  | EmptyString => false
  end.

(** The string without its leading [isspace] characters. *)
Fixpoint lstrip (s : string) : string :=
  match s with
  | String c r => if isspace c then lstrip r else s
  | EmptyString => EmptyString
  end.

(** The live tokens of a buffer: the slots before the first empty one. *)
Fixpoint live (argv : slots) : list string :=
  match argv with
  | Some t :: rest => t :: live rest
  | _ => []
  end.

(** A buffer of [cap] slots is sentinel-terminated: [k] live tokens at the
    front, [k] at most [cap - 1]; the slot after them is empty, and so is
    every later slot. *)
Definition terminated (cap : nat) (argv : slots) : Prop :=
  ∃ k, (k ≤ cap - 1)%nat ∧
       (∀ i, (i < k)%nat → ∃ t, argv !! i = Some (Some t)) ∧
       argv !! k = Some None ∧
       (∀ i, (k ≤ i < cap)%nat → argv !! i = Some None).

Definition INT_MAX : Z := 2 ^ 31 - 1.

(** The line, up to its terminator, fits the scratch array together with
    the terminator. *)
Definition fits (MAXLINE : nat) (line : string) : Prop :=
  (String.length (c_string line) < MAXLINE)%nat.

Fixpoint all_spaces (s : string) : bool :=
  match s with
  | EmptyString => true
  | String c r => Ascii.eqb c " " && all_spaces r
  end.

Fixpoint repeat_char (c : ascii) (n : nat) : string :=
  match n with
  | O => EmptyString
  | S k => String c (repeat_char c k)
  end.

Definition TAB : ascii := "009".

(** The first [k] characters of a string. *)
Fixpoint string_take (k : nat) (s : string) : string :=
  match k, s with
  | S j, String c r => String c (string_take j r)
  | _, _ => EmptyString
  end.

(** How many digits a string starts with. *)
Fixpoint digits_len (s : string) : nat :=
  match s with
  | String c r => if isdigit c then S (digits_len r) else O
  | EmptyString => O
  end.

(** The scratch array holds a part [s1] of the line's text followed by
    [tail]: either the terminator and what pads the array (then [s1] is all
    that remains of the line), or nothing, when the line was cut at the end
    of the array and the text [s2] was left out. *)
Definition scratch_tail (s2 tail : string) : Prop :=
  tail = "" ∨ (s2 = "" ∧ ∃ pad, tail = String NUL pad).

(** What [parse] leaves behind when [stored] are the tokens it stored
    during tokenization, in a buffer of [cap] slots. *)
Definition parsed (cap : nat) (stored : list string)
  : option Instruction * option slots :=
  match stored with
  | [] => (Some (mkInstruction None 0 None), Some (replicate cap None))
  | t0 :: _ =>
      (Some (mkInstruction (Some t0)
               (default 0 (parse_id_token (stored !! 1%nat) (Some t0) (Some 0)).2)
               (default None
                  (parse_file_token (stored !! 2%nat) (Some t0) (Some None)).2)),
       Some (if contains (Some t0) instructs_list_full
             then replicate cap None
             else (Some <$> stored) ++ replicate (cap - length stored) None))
  end.

(** ** The rest of the initialization interface *)

(** [initialize_command(inst, argv)]: the returned truth value and what the
    two destinations hold afterwards. *)
Definition initialize_command (MAXARGS : nat) (inst : option Instruction)
    (argv : option slots)
  : outcome (bool * option Instruction * option slots) :=
  let '(ok, inst') := initialize_instruction inst in
  if negb ok then Done (false, inst', argv)
  else
    '(ok, argv') ← initialize_argv MAXARGS argv;
    if negb ok then Done (false, inst', argv') else Done (true, inst', argv').

(** ** More vocabulary *)

Fixpoint no_space (s : string) : bool :=
  match s with
  | EmptyString => true
  | String c r => negb (Ascii.eqb c " ") && no_space r
  end.

(** A token: a non-empty text without a space and without a NUL. *)
Definition token_shaped (t : string) : Prop :=
  nonempty t = true ∧ no_space t = true ∧ no_nul t = true.

Definition INT_MIN : Z := - 2 ^ 31.

(** The decimal text of a number: its digits, most significant first,
    after a '-' when it is negative. *)
Definition decimal_of_nat (n : nat) : string :=
  NilEmpty.string_of_uint (Nat.to_uint n).

Definition decimal_of_Z (z : Z) : string :=
  if z <? 0 then String "-" (decimal_of_nat (Z.abs_nat z))
  else decimal_of_nat (Z.abs_nat z).

(** ** The parser on sample lines *)

Example parse_run :
  parse 100 25 (Some "run 3 notes.txt") (Some (mkInstruction None 7 None))
    (Some (replicate 25 None))
  = Done (Some (mkInstruction (Some "run") 3 (Some "notes.txt")),
          Some (replicate 25 None)).
Proof. vm_compute. reflexivity. Qed.

Example parse_delete_42 :
  parse 100 25 (Some "delete 42") (Some (mkInstruction None 7 None))
    (Some (replicate 25 None))
  = Done (Some (mkInstruction (Some "delete") 42 None), Some (replicate 25 None)).
Proof. vm_compute. reflexivity. Qed.

Example parse_delete_4x :
  parse 100 25 (Some "delete 4x") (Some (mkInstruction None 7 None))
    (Some (replicate 25 None))
  = Done (Some (mkInstruction (Some "delete") 0 None), Some (replicate 25 None)).
Proof. vm_compute. reflexivity. Qed.

Example parse_ls :
  parse 100 4 (Some "/bin/ls  -la ") (Some (mkInstruction None 7 None))
    (Some (replicate 4 (Some "x")))
  = Done (Some (mkInstruction (Some "/bin/ls") 0 None),
          Some [Some "/bin/ls"; Some "-la"; None; None]).
Proof. vm_compute. reflexivity. Qed.

Example tokens_ls : tokens "  /bin/ls  -la " = ["/bin/ls"; "-la"].
Proof. reflexivity. Qed.

(** A line cut at the end of the scratch array is parsed when enough of
    its tokens end before the cut. *)
Example parse_cut_line :
  parse 6 3 (Some "a b c d") (Some (mkInstruction None 7 None))
    (Some (replicate 3 (Some "x")))
  = Done (Some (mkInstruction (Some "a") 0 None), Some [Some "a"; Some "b"; None]).
Proof. vm_compute. reflexivity. Qed.

Example parse_full_array :
  parse 5 4 (Some "tasks") (Some (mkInstruction None 7 None))
    (Some (replicate 4 (Some "x")))
  = Overrun.
Proof. vm_compute. reflexivity. Qed.

(** ** Facts about strings *)

Lemma is_nul_false_iff c : is_nul c = false ↔ c ≠ NUL.
Proof. unfold is_nul. destruct (Ascii.eqb_spec c NUL); split; congruence. Qed.

Lemma append_cons c r t : String c r +:+ t = String c (r +:+ t).
Proof. reflexivity. Qed.

Lemma append_nil t : "" +:+ t = t.
Proof. reflexivity. Qed.

Lemma append_empty_r s : s +:+ "" = s.
Proof. induction s as [|c r IH]; [done|]. by rewrite append_cons, IH. Qed.

Lemma no_nul_cons c r : no_nul (String c r) = true ↔ c ≠ NUL ∧ no_nul r = true.
Proof.
  simpl. rewrite andb_true_iff, negb_true_iff, is_nul_false_iff. tauto.
Qed.

Lemma c_string_no_nul s : no_nul (c_string s) = true.
Proof.
  induction s as [|c r IH]; simpl; [done|].
  destruct (is_nul c) eqn:E; simpl; [done|]. by rewrite E.
Qed.

Lemma strncpy_c_string s n : strncpy s n = strncpy (c_string s) n.
Proof.
  revert s. induction n as [|n IH]; intros [|c r]; simpl; try done.
  destruct (is_nul c) eqn:E; simpl; [done|]. rewrite E. f_equal. apply IH.
Qed.

(** A line that fits leaves a terminator in the scratch array. *)
Lemma strncpy_fits s n :
  no_nul s = true → (String.length s < n)%nat →
  strncpy s n = s +:+ String NUL (nul_fill (n - String.length s - 1)).
Proof.
  revert s. induction n as [|n IH]; intros [|c r] Hs Hn; simpl in *; try lia.
  - by rewrite Nat.sub_0_r.
  - apply andb_true_iff in Hs as [Hc Hr]. apply negb_true_iff in Hc.
    rewrite Hc, append_cons. f_equal. rewrite IH by (done || lia). done.
Qed.

(** A line that does not fit fills the scratch array with its first
    characters: no terminator. *)
Lemma strncpy_full s n :
  no_nul s = true → (n ≤ String.length s)%nat →
  ∃ s2, s = strncpy s n +:+ s2 ∧ no_nul (strncpy s n) = true ∧
        String.length (strncpy s n) = n.
Proof.
  revert s. induction n as [|n IH]; intros s Hs Hn.
  - exists s. by destruct s.
  - destruct s as [|c r]; simpl in *; [lia|].
    apply andb_true_iff in Hs as [Hc Hr]. pose proof Hc as Hc'.
    apply negb_true_iff in Hc'. rewrite Hc'.
    destruct (IH r Hr ltac:(lia)) as (s2 & E & Hn2 & Hl).
    exists s2. rewrite append_cons. simpl. rewrite Hc, Hn2, Hl. by rewrite <- E.
Qed.

(** ** Facts about the tokens of a line *)

Lemma fields_word s :
  ∃ t, fields s = word s :: t ∧ List.filter nonempty t = tokens (after_word s).
Proof.
  induction s as [|c r (t & E & F)]; simpl.
  - by exists [].
  - destruct (Ascii.eqb c " ").
    + by exists (fields r).
    + rewrite E. by exists t.
Qed.

Lemma tokens_space r : tokens (String " " r) = tokens r.
Proof. done. Qed.

Lemma tokens_nonspace c r :
  Ascii.eqb c " " = false →
  tokens (String c r) = String c (word r) :: tokens (after_word r).
Proof.
  intros Hc. unfold tokens at 1. simpl. rewrite Hc.
  destruct (fields_word r) as (t & -> & F). simpl. by rewrite F.
Qed.

Lemma word_no_nul s : no_nul s = true → no_nul (word s) = true.
Proof.
  induction s as [|c r IH]; simpl; [done|].
  intros [Hc Hr]%andb_true_iff. destruct (Ascii.eqb c " "); simpl; [done|].
  by rewrite Hc, IH.
Qed.

Lemma after_word_no_nul s : no_nul s = true → no_nul (after_word s) = true.
Proof.
  induction s as [|c r IH]; simpl; [done|].
  intros [Hc Hr]%andb_true_iff. destruct (Ascii.eqb c " "); auto.
Qed.

Lemma after_word_length s : (String.length (after_word s) ≤ String.length s)%nat.
Proof.
  induction s as [|c r IH]; simpl; [done|]. destruct (Ascii.eqb c " "); lia.
Qed.

Lemma tokens_no_nul s : no_nul s = true → Forall (λ t, no_nul t = true) (tokens s).
Proof.
  remember (String.length s) as n eqn:Hn. revert s Hn.
  induction n as [n IH] using lt_wf_ind. intros s -> Hs.
  destruct s as [|c r]; [constructor|].
  apply no_nul_cons in Hs as [Hc Hr].
  destruct (Ascii.eqb c " ") eqn:E.
  - apply Ascii.eqb_eq in E as ->. rewrite tokens_space.
    eapply IH; [|done..]. simpl. lia.
  - rewrite tokens_nonspace by done. constructor.
    + apply no_nul_cons. split; [done|]. by apply word_no_nul.
    + eapply (IH (String.length (after_word r))); [|done|by apply after_word_no_nul].
      pose proof (after_word_length r). simpl. lia.
Qed.

(** ** [strtok] over the scratch array *)

Lemma strtok_scan_sound s1 s2 tail w save :
  scratch_tail s2 tail → no_nul s1 = true →
  strtok_scan (s1 +:+ tail) " " = Done (w, save) →
  w = word (s1 +:+ s2) ∧
  ∃ s1', save = s1' +:+ tail ∧ no_nul s1' = true ∧
         after_word (s1 +:+ s2) = s1' +:+ s2.
Proof.
  intros Ht. revert w save. induction s1 as [|c r IH]; intros w save Hs H.
  - rewrite append_nil in *. destruct Ht as [->|(-> & pad & ->)]; [done|].
    simpl in H. injection H as <- <-. split; [done|]. by exists "".
  - apply no_nul_cons in Hs as [Hc Hr]. rewrite !append_cons in *.
    simpl in H. apply is_nul_false_iff in Hc. rewrite Hc in H.
    rewrite orb_false_r in H. simpl. destruct (Ascii.eqb c " ").
    + injection H as <- <-. split; [done|]. by exists r.
    + destruct (strtok_scan (r +:+ tail) " ") as [[t sv]|] eqn:E; [|done].
      simpl in H. injection H as <- <-.
      destruct (IH t sv Hr eq_refl) as (-> & s1' & -> & Hn & Ha).
      split; [done|]. by exists s1'.
Qed.

Lemma strtok_sound s1 s2 tail next :
  scratch_tail s2 tail → no_nul s1 = true →
  strtok (s1 +:+ tail) " " = Done next →
  match next with
  | None => tokens (s1 +:+ s2) = []
  | Some (t, save) =>
      ∃ s1', save = s1' +:+ tail ∧ no_nul s1' = true ∧
             tokens (s1 +:+ s2) = t :: tokens (s1' +:+ s2)
  end.
Proof.
  intros Ht. induction s1 as [|c r IH]; intros Hs H.
  - rewrite append_nil in *. destruct Ht as [->|(-> & pad & ->)]; [done|].
    simpl in H. by injection H as <-.
  - apply no_nul_cons in Hs as [Hc Hr]. rewrite !append_cons in *.
    simpl in H. apply is_nul_false_iff in Hc. rewrite Hc in H.
    rewrite orb_false_r in H. destruct (Ascii.eqb c " ") eqn:E.
    + apply Ascii.eqb_eq in E as ->. rewrite tokens_space. by apply IH.
    + destruct (strtok_scan (r +:+ tail) " ") as [[t sv]|] eqn:E'; [|done].
      simpl in H. injection H as <-.
      destruct (strtok_scan_sound _ _ _ _ _ Ht Hr E') as (-> & s1' & -> & Hn & Ha).
      exists s1'. rewrite tokens_nonspace, Ha by done. done.
Qed.

Lemma strtok_scan_total s pad :
  no_nul s = true → ∃ r, strtok_scan (s +:+ String NUL pad) " " = Done r.
Proof.
  induction s as [|c r IH]; intros Hs.
  - by eexists.
  - apply no_nul_cons in Hs as [Hc Hr]. rewrite append_cons. simpl.
    apply is_nul_false_iff in Hc. rewrite Hc.
    destruct (Ascii.eqb c " "); simpl; [by eexists|].
    destruct (IH Hr) as [[t sv] ->]. by eexists.
Qed.

Lemma strtok_total s pad :
  no_nul s = true → ∃ r, strtok (s +:+ String NUL pad) " " = Done r.
Proof.
  induction s as [|c r IH]; intros Hs.
  - by eexists.
  - apply no_nul_cons in Hs as [Hc Hr]. rewrite append_cons. simpl.
    apply is_nul_false_iff in Hc. rewrite Hc.
    destruct (Ascii.eqb c " "); simpl; [by apply IH|].
    destruct (strtok_scan_total r pad Hr) as [[t sv] ->]. by eexists.
Qed.

(** ** The token buffer *)

Lemma store_Done (argv : slots) i p argv' :
  store argv i p = Done argv' ↔ (i < length argv)%nat ∧ argv' = <[i := p]> argv.
Proof.
  unfold store. case_decide; split; try done.
  - intros [= <-]. done.
  - intros [_ ->]. done.
  - intros [? _]. lia.
Qed.

Lemma load_Done (argv : slots) i p : load argv i = Done p ↔ argv !! i = Some p.
Proof. unfold load. destruct (argv !! i); split; congruence. Qed.

Lemma clear_slots_spec n i (argv : slots) :
  (i + n ≤ length argv)%nat →
  clear_slots n i argv
  = Done (take i argv ++ replicate n None ++ drop (i + n) argv).
Proof.
  revert i argv. induction n as [|n IH]; intros i argv Hl; simpl.
  - by rewrite Nat.add_0_r, take_drop.
  - unfold store. rewrite decide_True by lia. simpl.
    rewrite IH by (rewrite length_insert; lia). f_equal.
    rewrite (take_S_r (<[i:=None]> argv) i None)
      by (apply list_lookup_insert_eq; lia).
    rewrite take_insert_ge by lia.
    rewrite drop_insert_lt by lia. rewrite <- app_assoc. simpl.
    by rewrite Nat.add_succ_r.
Qed.

Lemma initialize_argv_n_spec (argv : slots) n :
  length argv = n →
  initialize_argv_n (Some argv) n = Done (true, Some (replicate n None)).
Proof.
  intros Hl. unfold initialize_argv_n.
  rewrite clear_slots_spec by (simpl; lia). simpl.
  rewrite drop_ge by lia. by rewrite app_nil_r.
Qed.

(** The loop stores the token at hand and the tokens that follow it, as
    far as there is room. *)
Lemma store_tokens_sound room s1 s2 tail t index (argv argv' : slots) :
  scratch_tail s2 tail → no_nul s1 = true →
  store_tokens room t (s1 +:+ tail) index argv = Done argv' →
  let toks := take (S room) (t :: tokens (s1 +:+ s2)) in
  (index + length toks ≤ length argv)%nat ∧
  argv' = take index argv ++ (Some <$> toks) ++ drop (index + length toks) argv.
Proof.
  intros Ht. revert s1 t index argv argv'.
  induction room as [|room IH]; intros s1 t index argv argv' Hs H; simpl in H;
    unfold string_copy in H.
  - destruct (store argv index (Some t)) as [a1|] eqn:E1; [|done].
    apply store_Done in E1 as [Hi ->]. simpl in H.
    destruct (strtok (s1 +:+ tail) " ") as [next|] eqn:E2; [|done]. simpl in H.
    assert (argv' = <[index := Some t]> argv) as ->
      by (destruct next as [[? ?]|]; congruence).
    simpl. split; [lia|].
    rewrite Nat.add_1_r. by apply insert_take_drop.
  - destruct (store argv index (Some t)) as [a1|] eqn:E1; [|done].
    apply store_Done in E1 as [Hi ->]. simpl in H.
    destruct (strtok (s1 +:+ tail) " ") as [next|] eqn:E2; [|done]. simpl in H.
    pose proof (strtok_sound _ _ _ _ Ht Hs E2) as Hn.
    destruct next as [[t' save]|].
    + destruct Hn as (s1' & -> & Hs' & Htok).
      apply IH in H; [|done]. rewrite Htok.
      change (take (S (S room)) (t :: t' :: tokens (s1' +:+ s2)))
        with (t :: take (S room) (t' :: tokens (s1' +:+ s2))).
      remember (take (S room) (t' :: tokens (s1' +:+ s2))) as toks eqn:Etoks.
      clear Etoks. simpl in H. destruct H as [Hl ->].
      rewrite length_insert in Hl. simpl.
      split; [lia|].
      rewrite (take_S_r (<[index:=Some t]> argv) index (Some t))
        by (apply list_lookup_insert_eq; lia).
      rewrite take_insert_ge by lia.
      rewrite drop_insert_lt by lia. rewrite <- app_assoc.
      simpl. by rewrite Nat.add_succ_r.
    + injection H as <-. rewrite Hn. simpl. split; [lia|].
      rewrite Nat.add_1_r. by apply insert_take_drop.
Qed.

Lemma store_tokens_total room s pad t index (argv : slots) :
  no_nul s = true → (index + S room ≤ length argv)%nat →
  ∃ argv', store_tokens room t (s +:+ String NUL pad) index argv = Done argv'.
Proof.
  revert s t index argv.
  induction room as [|room IH]; intros s t index argv Hs Hl; simpl.
  - unfold store. rewrite decide_True by lia. simpl.
    destruct (strtok_total s pad Hs) as [next ->]. simpl.
    destruct next as [[? ?]|]; by eexists.
  - unfold store. rewrite decide_True by lia. simpl.
    destruct (strtok_total s pad Hs) as [next E]. rewrite E. simpl.
    destruct next as [[t' save]|]; [|by eexists].
    assert (scratch_tail "" (String NUL pad)) as Ht by (right; eauto).
    destruct (strtok_sound _ _ _ _ Ht Hs E) as (s1' & -> & Hs' & _).
    apply IH; [done|]. rewrite length_insert. lia.
Qed.

(** ** The result of [parse] in terms of the tokens of the line *)

Lemma strncpy_view line n :
  ∃ s1 s2 tail,
    scratch_tail s2 tail ∧ no_nul s1 = true ∧
    strncpy line n = s1 +:+ tail ∧ c_string line = s1 +:+ s2 ∧
    ((String.length (c_string line) < n)%nat → ∃ pad, tail = String NUL pad).
Proof.
  rewrite strncpy_c_string. pose proof (c_string_no_nul line) as Hs.
  destruct (decide (String.length (c_string line) < n)%nat) as [Hl|Hl].
  - exists (c_string line), "", (String NUL (nul_fill (n - String.length (c_string line) - 1))).
    split_and!; [right; eauto|done|by apply strncpy_fits|
                 by rewrite append_empty_r|eauto].
  - destruct (strncpy_full (c_string line) n Hs ltac:(lia)) as (s2 & E & Hn & _).
    exists (strncpy (c_string line) n), s2, "".
    split_and!; [by left|done|by rewrite append_empty_r|done|lia].
Qed.

Lemma free_argv_str_replicate (argv : slots) :
  free_argv_str argv = replicate (length argv) None.
Proof. induction argv as [|p r IH]; simpl; [done|]. f_equal. apply IH. Qed.

Lemma lookup_stored cap (toks : list string) i :
  (length toks ≤ cap)%nat → (i < cap)%nat →
  ((Some <$> toks) ++ replicate (cap - length toks) None) !! i
  = Some (toks !! i).
Proof.
  intros Hl Hi. destruct (decide (i < length toks)%nat) as [Hlt|Hge].
  - rewrite lookup_app_l by (rewrite length_fmap; lia).
    rewrite list_lookup_fmap. destruct (lookup_lt_is_Some_2 toks i Hlt) as [x ->].
    done.
  - rewrite lookup_app_r by (rewrite length_fmap; lia).
    rewrite lookup_replicate_2 by (rewrite length_fmap; lia).
    by rewrite lookup_ge_None_2 by lia.
Qed.

Lemma length_stored cap (toks : list string) :
  (length toks ≤ cap)%nat →
  length ((Some <$> toks) ++ replicate (cap - length toks) (@None string)) = cap.
Proof. intros. rewrite length_app, length_fmap, length_replicate. lia. Qed.

#[local] Arguments contains : simpl never.
#[local] Arguments free_argv_str : simpl never.
#[local] Arguments parse_id_token : simpl never.
#[local] Arguments parse_file_token : simpl never.

Section ParseFacts.

Variables MAXLINE MAXARGS : nat.
Hypothesis capacity : (3 ≤ MAXARGS)%nat.

Lemma parse_n_stored line inst p_tok save (toks : list string) :
  strtok (strncpy line MAXLINE) " " = Done (Some (p_tok, save)) →
  store_tokens (MAXARGS - 1 - 1) p_tok save 0 (replicate MAXARGS None)
  = Done ((Some <$> toks) ++ replicate (MAXARGS - length toks) None) →
  (0 < length toks ≤ MAXARGS - 1)%nat →
  parse_n MAXLINE (Some line) (Some inst) (Some (replicate MAXARGS None))
    (MAXARGS - 1)
  = Done (parsed MAXARGS toks).
Proof.
  intros E1 E2 Hl. unfold parse_n. rewrite E1. simpl. rewrite E2. simpl.
  unfold load. rewrite !lookup_stored by lia.
  assert (free_argv_str ((Some <$> toks) ++ replicate (MAXARGS - length toks) None)
          = replicate MAXARGS None) as Hfree
    by (rewrite free_argv_str_replicate, length_stored by lia; done).
  remember ((Some <$> toks) ++ replicate (MAXARGS - length toks) None) as av.
  destruct toks as [|t0 rest]; [simpl in Hl; lia|]. simpl.
  unfold string_copy.
  destruct (parse_id_token (rest !! 0%nat) (Some t0) (Some 0)) as [b1 idp].
  destruct (parse_file_token (rest !! 1%nat) (Some t0) (Some None)) as [b2 filep].
  simpl. destruct (contains (Some t0) instructs_list_full);
    [by rewrite Hfree|by subst av].
Qed.

Lemma parse_initialized cmd_line inst (argv : slots) :
  length argv = MAXARGS →
  parse MAXLINE MAXARGS cmd_line inst (Some argv)
  = parse_n MAXLINE cmd_line inst (Some (replicate MAXARGS None)) (MAXARGS - 1).
Proof. intros Hlen. unfold parse. by rewrite initialize_argv_n_spec. Qed.

(** Whatever [parse] returns is determined by the first [MAXARGS - 1]
    tokens of the line. *)
Lemma parse_sound line inst (argv : slots) r :
  length argv = MAXARGS →
  parse MAXLINE MAXARGS (Some line) (Some inst) (Some argv) = Done r →
  r = parsed MAXARGS (take (MAXARGS - 1) (line_tokens line)).
Proof.
  intros Hlen H. rewrite parse_initialized in H by done.
  destruct (strncpy_view line MAXLINE) as (s1 & s2 & tail & Ht & Hs & Eb & Ec & _).
  destruct (strtok (strncpy line MAXLINE) " ") as [first|] eqn:E1;
    [|by unfold parse_n in H; rewrite E1 in H].
  pose proof E1 as E1'. rewrite Eb in E1'.
  apply (strtok_sound _ _ _ _ Ht Hs) in E1'.
  unfold line_tokens. rewrite Ec.
  destruct first as [[p_tok save]|].
  - destruct E1' as (s1' & -> & Hs' & ->).
    destruct (store_tokens (MAXARGS - 1 - 1) p_tok (s1' +:+ tail) 0
                (replicate MAXARGS None)) as [av|] eqn:E2;
      [|by unfold parse_n in H; rewrite E1 in H; simpl in H; rewrite E2 in H].
    pose proof E2 as E2'.
    apply (store_tokens_sound _ _ _ _ _ _ _ _ Ht Hs') in E2'.
    replace (S (MAXARGS - 1 - 1)) with (MAXARGS - 1)%nat in E2' by lia.
    set (toks := take (MAXARGS - 1) (p_tok :: tokens (s1' +:+ s2))) in *.
    simpl in E2'. destruct E2' as [Hl ->].
    rewrite length_replicate in Hl. rewrite drop_replicate in E2.
    assert (0 < length toks)%nat.
    { subst toks. destruct MAXARGS as [|[|m]]; simpl; lia. }
    assert (length toks ≤ MAXARGS - 1)%nat.
    { subst toks. rewrite length_take. lia. }
    erewrite parse_n_stored in H; [|done..|lia]. congruence.
  - rewrite E1'. rewrite take_nil. unfold parse_n in H. rewrite E1 in H.
    simpl in H. by injection H as <-.
Qed.

(** A line that fits the scratch array is parsed without an access outside
    an array. *)
Lemma parse_total line inst (argv : slots) :
  length argv = MAXARGS → (String.length (c_string line) < MAXLINE)%nat →
  ∃ r, parse MAXLINE MAXARGS (Some line) (Some inst) (Some argv) = Done r.
Proof.
  intros Hlen Hfit. rewrite parse_initialized by done.
  destruct (strncpy_view line MAXLINE) as (s1 & s2 & tail & Ht & Hs & Eb & Ec & Hp).
  destruct (Hp Hfit) as [pad ->].
  destruct (strtok_total s1 pad Hs) as [first E1]. rewrite <- Eb in E1.
  destruct first as [[p_tok save]|];
    [|by unfold parse_n; rewrite E1; eexists].
  pose proof E1 as E1'. rewrite Eb in E1'.
  apply (strtok_sound _ _ _ _ Ht Hs) in E1' as (s1' & -> & Hs' & Etok).
  destruct (store_tokens_total (MAXARGS - 1 - 1) s1' pad p_tok 0
              (replicate MAXARGS None) Hs') as [av E2].
  { rewrite length_replicate. lia. }
  pose proof E2 as E2'.
  apply (store_tokens_sound _ _ _ _ _ _ _ _ Ht Hs') in E2'.
  replace (S (MAXARGS - 1 - 1)) with (MAXARGS - 1)%nat in E2' by lia.
  set (toks := take (MAXARGS - 1) (p_tok :: tokens (s1' +:+ s2))) in *.
  simpl in E2'. destruct E2' as [Hl ->].
  rewrite length_replicate in Hl. rewrite drop_replicate in E2.
  assert (0 < length toks)%nat.
  { subst toks. destruct MAXARGS as [|[|m]]; simpl; lia. }
  assert (length toks ≤ MAXARGS - 1)%nat.
  { subst toks. rewrite length_take. lia. }
  erewrite parse_n_stored; [by eexists|done..|lia].
Qed.

End ParseFacts.

(** ** Membership in the reference tables *)

Lemma char_diff_0 a b : char_diff a b = 0 ↔ a = b.
Proof.
  unfold char_diff. split; [|intros ->; lia].
  intros H. assert (nat_of_ascii a = nat_of_ascii b) as E by lia.
  rewrite <- (ascii_nat_embedding a), <- (ascii_nat_embedding b). by rewrite E.
Qed.

Lemma strlen_no_nul s : no_nul s = true → strlen s = String.length s.
Proof.
  induction s as [|c r IH]; simpl; [done|].
  intros [Hc Hr]%andb_true_iff. apply negb_true_iff in Hc. rewrite Hc. auto.
Qed.

(** Comparing one character more than the table entry has is exact
    equality. *)
Lemma strncmp_exact a b :
  no_nul a = true → no_nul b = true →
  strncmp a b (strlen b + 1) = 0 ↔ a = b.
Proof.
  revert a. induction b as [|cb b IH]; intros a Ha Hb.
  - destruct a as [|ca a]; simpl; [done|].
    apply no_nul_cons in Ha as [Hc _]. rewrite char_diff_0. split; congruence.
  - apply no_nul_cons in Hb as [Hcb Hb]. simpl.
    apply is_nul_false_iff in Hcb. rewrite Hcb. simpl.
    destruct a as [|ca a].
    + simpl. rewrite char_diff_0. apply is_nul_false_iff in Hcb.
      unfold NUL in *. split; congruence.
    + apply no_nul_cons in Ha as [Hca Ha]. apply is_nul_false_iff in Hca.
      cbn [strncmp]. destruct (Ascii.eqb_spec ca cb) as [->|Hne].
      * rewrite Hcb, IH by done. split; congruence.
      * rewrite char_diff_0. split; congruence.
Qed.

Lemma contains_from_elem needle table :
  no_nul needle = true → Forall (λ h, no_nul h = true) table →
  contains_from needle table = true ↔ needle ∈ table.
Proof.
  intros Hn. induction 1 as [|h rest Hh _ IH]; simpl.
  - split; [done|]. by intros ?%elem_of_nil.
  - rewrite elem_of_cons.
    destruct (Z.eqb_spec (strncmp needle h (strlen h + 1)) 0) as [E|E].
    + apply strncmp_exact in E; [|done..]. tauto.
    + rewrite IH. rewrite strncmp_exact in E by done. tauto.
Qed.

Lemma contains_full t :
  no_nul t = true →
  contains (Some t) instructs_list_full = bool_decide (t ∈ instructs_list_full).
Proof.
  intros Ht. apply eq_true_iff_eq. rewrite bool_decide_eq_true.
  apply contains_from_elem; [done|]. repeat constructor.
Qed.

Lemma contains_with_id t :
  no_nul t = true →
  contains (Some t) instructs_with_id = bool_decide (t ∈ instructs_with_id).
Proof.
  intros Ht. apply eq_true_iff_eq. rewrite bool_decide_eq_true.
  apply contains_from_elem; [done|]. repeat constructor.
Qed.

Lemma contains_with_file t :
  no_nul t = true →
  contains (Some t) instructs_with_file = bool_decide (t ∈ instructs_with_file).
Proof.
  intros Ht. apply eq_true_iff_eq. rewrite bool_decide_eq_true.
  apply contains_from_elem; [done|]. repeat constructor.
Qed.

(** ** [strtol] and whole-token integers *)

Lemma read_digits_len s acc : (read_digits s acc).2 = digits_len s.
Proof.
  revert acc. induction s as [|c r IH]; intros acc; simpl; [done|].
  destruct (isdigit c); [|done].
  specialize (IH (acc * 10 + digit_value c)).
  destruct (read_digits r (acc * 10 + digit_value c)). simpl in *. by rewrite IH.
Qed.

Lemma lstrip_drop s : string_drop (skip_isspace s) s = lstrip s.
Proof.
  induction s as [|c r IH]; simpl; [done|]. by destruct (isspace c).
Qed.

Lemma char_at_drop k s j : char_at (string_drop k s) j = char_at s (k + j).
Proof.
  revert s. induction k as [|k IH]; intros [|c r]; simpl; done.
Qed.

Lemma no_nul_lstrip s : no_nul s = true → no_nul (lstrip s) = true.
Proof.
  induction s as [|c r IH]; [done|]. intros H. pose proof H as H'.
  apply no_nul_cons in H' as [_ Hr]. simpl. destruct (isspace c); auto.
Qed.

Lemma nul_at_digits s :
  no_nul s = true → is_nul (char_at s (digits_len s)) = all_digits s.
Proof.
  induction s as [|c r IH]; [done|].
  intros [Hc Hr]%no_nul_cons. simpl. destruct (isdigit c); simpl; [auto|].
  by apply is_nul_false_iff.
Qed.

Lemma digits_len_0 s : digits_len s = O → nonempty s && all_digits s = false.
Proof. destruct s as [|c r]; simpl; [done|]. by destruct (isdigit c). Qed.

Lemma digits_len_nonempty s : digits_len s ≠ O → nonempty s = true.
Proof. by destruct s. Qed.

(** [strtol] consumes the whole token exactly when the token, after its
    leading [isspace] characters, is a decimal literal. *)
Lemma strtol_whole tok :
  no_nul tok = true →
  negb (is_nul (char_at tok (strtol tok).2)) || Nat.eqb (strtol tok).2 0
  = negb (decimal_literal (lstrip tok)).
Proof.
  intros Hn. apply no_nul_lstrip in Hn. unfold strtol. rewrite lstrip_drop.
  assert (∀ sg, char_at tok (skip_isspace tok + sg) = char_at (lstrip tok) sg) as Hat
    by (intros; by rewrite <- lstrip_drop, char_at_drop).
  destruct (lstrip tok) as [|c r] eqn:El; [simpl; by rewrite orb_true_r|].
  apply no_nul_cons in Hn as [Hc Hr]. cbn [char_at decimal_literal].
  rewrite (orb_comm (Ascii.eqb c "+")).
  destruct (Ascii.eqb c "-" || Ascii.eqb c "+") eqn:Es.
  - cbn [string_drop]. pose proof (read_digits_len r 0) as Hk.
    destruct (read_digits r 0) as [v k]. simpl in Hk. subst k.
    destruct (digits_len r) as [|k] eqn:Ek.
    + simpl. by rewrite orb_true_r, digits_len_0.
    + cbn [snd]. rewrite <- Nat.add_assoc, Hat. cbn [char_at Nat.add].
      rewrite <- Ek, nul_at_digits, digits_len_nonempty by (done || lia).
      rewrite Ek. simpl. by rewrite Nat.add_succ_r, orb_false_r.
  - cbn [string_drop].
    pose proof (read_digits_len (String c r) 0) as Hk.
    destruct (read_digits (String c r) 0) as [v k]. simpl in Hk. subst k.
    destruct (isdigit c) eqn:Ed.
    + cbn [snd]. rewrite Nat.add_0_r, Hat. cbn [char_at all_digits].
      rewrite nul_at_digits, Ed by done. simpl.
      by rewrite Nat.add_succ_r, orb_false_r.
    + simpl. by rewrite Ed, orb_true_r.
Qed.

Lemma parse_id_token_spec tok name x :
  no_nul tok = true → no_nul name = true →
  parse_id_token (Some tok) (Some name) (Some x)
  = if bool_decide (name ∈ instructs_with_id)
    then if decimal_literal (lstrip tok)
         then (true, Some (int_of_long (strtol tok).1))
         else (false, Some 0)
    else (false, Some x).
Proof.
  intros Ht Hn. unfold parse_id_token. rewrite contains_with_id by done.
  destruct (bool_decide (name ∈ instructs_with_id)); [|done]. simpl.
  pose proof (strtol_whole tok Ht) as H.
  destruct (strtol tok) as [v e]. simpl in H. rewrite H.
  by destruct (decimal_literal (lstrip tok)).
Qed.

Lemma parse_file_token_spec tok name x :
  no_nul name = true →
  parse_file_token (Some tok) (Some name) (Some x)
  = if bool_decide (name ∈ instructs_with_file)
    then (true, Some (Some tok))
    else (false, Some x).
Proof.
  intros Hn. unfold parse_file_token. rewrite contains_with_file by done.
  by destruct (bool_decide (name ∈ instructs_with_file)).
Qed.

(** ** Lines, tokens and buffers *)

Lemma line_tokens_no_nul line : Forall (λ t, no_nul t = true) (line_tokens line).
Proof. apply tokens_no_nul, c_string_no_nul. Qed.

Lemma tokens_all_spaces s : all_spaces s = true → tokens s = [].
Proof.
  induction s as [|c r IH]; simpl; [done|].
  intros [->%Ascii.eqb_eq Hr]%andb_true_iff. rewrite tokens_space. auto.
Qed.

Lemma live_stored (toks : list string) k :
  live ((Some <$> toks) ++ replicate k None) = toks.
Proof.
  induction toks as [|t r IH]; simpl.
  - by destruct k.
  - f_equal. apply IH.
Qed.

Lemma live_replicate_None k : live (replicate k None) = [].
Proof. by destruct k. Qed.

Lemma terminated_stored cap (toks : list string) :
  (length toks ≤ cap - 1)%nat → (1 ≤ cap)%nat →
  terminated cap ((Some <$> toks) ++ replicate (cap - length toks) None).
Proof.
  intros Hl Hc. exists (length toks). split_and!; [done|..].
  - intros i Hi. rewrite lookup_stored by lia.
    destruct (lookup_lt_is_Some_2 toks i Hi) as [t ->]. by exists t.
  - rewrite lookup_stored by lia. by rewrite lookup_ge_None_2.
  - intros i Hi. rewrite lookup_stored by lia. by rewrite lookup_ge_None_2 by lia.
Qed.

Lemma tokenization_sound MAXLINE room line p save index (argv av : slots) :
  strtok (strncpy line MAXLINE) " " = Done (Some (p, save)) →
  store_tokens room p save index argv = Done av →
  let stored := take (S room) (line_tokens line) in
  av = take index argv ++ (Some <$> stored) ++ drop (index + length stored) argv.
Proof.
  intros E1 E2.
  destruct (strncpy_view line MAXLINE) as (s1 & s2 & tail & Ht & Hs & Eb & Ec & _).
  rewrite Eb in E1.
  apply (strtok_sound _ _ _ _ Ht Hs) in E1 as (s1' & -> & Hs' & Etok).
  apply (store_tokens_sound _ _ _ _ _ _ _ _ Ht Hs') in E2.
  unfold line_tokens. rewrite Ec, Etok. apply E2.
Qed.

(** ** The properties of the specification *)

(** C1, as stated, fails: for the line made of "delete", a space, a tab
    and "7", the first token is id-bearing and the second token, a tab
    followed by "7", is not a decimal literal (it has a leading non-digit
    character), yet [parse_id_token] returns true and [parse] leaves the id
    7, not the default 0. *)
Lemma id_taken_after_leading_tab :
  line_tokens ("delete " +:+ String TAB "7") = ["delete"; String TAB "7"] ∧
  bool_decide ("delete" ∈ instructs_with_id) = true ∧
  decimal_literal (String TAB "7") = false ∧
  parse_id_token (Some (String TAB "7")) (Some "delete") (Some 0)
  = (true, Some 7) ∧
  parse 100 25 (Some ("delete " +:+ String TAB "7"))
    (Some (mkInstruction None 0 None)) (Some (replicate 25 None))
  = Done (Some (mkInstruction (Some "delete") 7 None), Some (replicate 25 None)).
Proof. split_and!; vm_compute; reflexivity. Qed.

(** C1 (amended): for every parse call whose line produces at least one
    token, [parse_id_token] returns true, and the id is the narrowed
    [strtol] value of the second token, exactly when the first token is a
    member of the id-bearing table and the second token exists and, after
    any leading [isspace] characters, is a decimal literal to its end (an
    optional sign, then at least one digit); in every other case
    [parse_id_token] returns false and the id is the default 0. A line that
    fits the scratch array always gets this result. *)
Theorem parse_id_field MAXLINE MAXARGS line inst (argv : slots) t0 rest :
  (3 ≤ MAXARGS)%nat → length argv = MAXARGS →
  line_tokens line = t0 :: rest →
  (fits MAXLINE line →
   ∃ r, parse MAXLINE MAXARGS (Some line) (Some inst) (Some argv) = Done r) ∧
  ∀ inst' argv',
    parse MAXLINE MAXARGS (Some line) (Some inst) (Some argv)
    = Done (Some inst', argv') →
    if bool_decide (t0 ∈ instructs_with_id)
       && from_option (λ t1, decimal_literal (lstrip t1)) false (rest !! 0%nat)
    then ∃ t1, rest !! 0%nat = Some t1 ∧
               parse_id_token (Some t1) (Some t0) (Some 0)
               = (true, Some (id inst')) ∧
               id inst' = int_of_long (strtol t1).1
    else parse_id_token (rest !! 0%nat) (Some t0) (Some 0) = (false, Some 0) ∧
         id inst' = 0.
Proof.
  intros Hcap Hlen Htok. split; [intros Hfit; by apply parse_total|].
  intros inst' argv' H. apply (parse_sound _ _ Hcap _ _ _ _ Hlen) in H.
  pose proof (line_tokens_no_nul line) as Hnn. rewrite Htok in H, Hnn.
  apply Forall_cons in Hnn as [Hn0 Hnr].
  destruct MAXARGS as [|[|[|m]]]; [lia..|]. simpl in H.
  injection H as -> _. cbn [id].
  destruct (rest !! 0%nat) as [t1|] eqn:E1.
  - assert (no_nul t1 = true) as Hn1
      by (by eapply (proj1 (Forall_lookup _ _) Hnr)).
    destruct rest as [|t1' rest']; [done|]. injection E1 as ->.
    cbn [take lookup list_lookup from_option].
    pose proof (parse_id_token_spec t1 t0 0 Hn1 Hn0) as Hspec.
    destruct (bool_decide (t0 ∈ instructs_with_id));
      destruct (decimal_literal (lstrip t1)); rewrite Hspec; simpl; eauto.
  - destruct rest; [|done]. simpl. by rewrite andb_false_r.
Qed.

Lemma parse_id_field_witness :
  (3 ≤ 25)%nat ∧ length (replicate 25 (@None string)) = 25%nat ∧
  line_tokens "cancel -42 x" = ["cancel"; "-42"; "x"] ∧
  fits 100 "cancel -42 x" ∧
  ∃ inst' argv',
    parse 100 25 (Some "cancel -42 x") (Some (mkInstruction None 0 None))
      (Some (replicate 25 None)) = Done (Some inst', argv') ∧
    parse_id_token (Some "-42") (Some "cancel") (Some 0) = (true, Some (id inst')) ∧
    id inst' = -42.
Proof.
  assert (H1 : (3 ≤ 25)%nat) by lia.
  assert (H2 : length (replicate 25 (@None string)) = 25%nat) by reflexivity.
  assert (H3 : line_tokens "cancel -42 x" = ["cancel"; "-42"; "x"]) by reflexivity.
  assert (H4 : fits 100 "cancel -42 x") by (unfold fits; simpl; lia).
  split_and!; [exact H1|exact H2|exact H3|exact H4|].
  destruct (parse_id_field 100 25 "cancel -42 x" (mkInstruction None 0 None)
              _ _ _ H1 H2 H3) as [Ht Hs].
  destruct (Ht H4) as [[[inst'|] argv'] E]; [|discriminate E].
  exists inst', argv'. split; [exact E|].
  destruct (Hs inst' argv' E) as (t1 & Et & Hp & Hi).
  injection Et as <-. split; [exact Hp|exact Hi].
Defined.

(** C2: for every parse call whose line produces at least one token: if
    the first token is a member of the full instruction list, every slot of
    the token buffer is empty when [parse] returns; if it is not, the
    tokens stored during tokenization (the first [MAXARGS - 1] tokens of
    the line) are all in the buffer, in order and unchanged, and the
    instruction name is a copy of the first token. A line that fits the
    scratch array always gets this result. *)
Theorem parse_releases_recognized MAXLINE MAXARGS line inst (argv : slots) t0 rest :
  (3 ≤ MAXARGS)%nat → length argv = MAXARGS →
  line_tokens line = t0 :: rest →
  (fits MAXLINE line →
   ∃ r, parse MAXLINE MAXARGS (Some line) (Some inst) (Some argv) = Done r) ∧
  ∀ inst' argv',
    parse MAXLINE MAXARGS (Some line) (Some inst) (Some argv)
    = Done (inst', argv') →
    (t0 ∈ instructs_list_full → argv' = Some (replicate MAXARGS None)) ∧
    (t0 ∉ instructs_list_full →
     let stored := take (MAXARGS - 1) (t0 :: rest) in
     argv' = Some ((Some <$> stored) ++ replicate (MAXARGS - length stored) None) ∧
     live (default [] argv') = stored ∧
     instruct <$> inst' = Some (Some t0)).
Proof.
  intros Hcap Hlen Htok. split; [intros Hfit; by apply parse_total|].
  intros inst' argv' H. apply (parse_sound _ _ Hcap _ _ _ _ Hlen) in H.
  pose proof (line_tokens_no_nul line) as Hnn. rewrite Htok in H, Hnn.
  apply Forall_cons in Hnn as [Hn0 _].
  destruct MAXARGS as [|n]; [lia|]. destruct n as [|n]; [lia|].
  replace (S (S n) - 1)%nat with (S n) in * by lia.
  cbn [take parsed] in H. rewrite contains_full in H by done.
  injection H as -> ->. split.
  - intros Hin. by rewrite bool_decide_eq_true_2.
  - intros Hout. rewrite bool_decide_eq_false_2 by done.
    cbn [take default]. split_and!; [done| |done].
    apply (live_stored (t0 :: take n rest)).
Qed.

Lemma parse_releases_recognized_witness :
  (3 ≤ 25)%nat ∧ length (replicate 25 (@None string)) = 25%nat ∧
  line_tokens "/bin/ls -la" = ["/bin/ls"; "-la"] ∧
  fits 100 "/bin/ls -la" ∧ ("/bin/ls" ∉ instructs_list_full) ∧
  ∃ inst' argv',
    parse 100 25 (Some "/bin/ls -la") (Some (mkInstruction None 0 None))
      (Some (replicate 25 None)) = Done (inst', argv') ∧
    live (default [] argv') = ["/bin/ls"; "-la"] ∧
    instruct <$> inst' = Some (Some "/bin/ls").
Proof.
  assert (H1 : (3 ≤ 25)%nat) by lia.
  assert (H2 : length (replicate 25 (@None string)) = 25%nat) by reflexivity.
  assert (H3 : line_tokens "/bin/ls -la" = ["/bin/ls"; "-la"]) by reflexivity.
  assert (H4 : fits 100 "/bin/ls -la") by (unfold fits; simpl; lia).
  assert (H5 : "/bin/ls" ∉ instructs_list_full)
    by (apply (bool_decide_unpack _); reflexivity).
  split_and!; [exact H1|exact H2|exact H3|exact H4|exact H5|].
  destruct (parse_releases_recognized 100 25 "/bin/ls -la"
              (mkInstruction None 0 None) _ _ _ H1 H2 H3) as [Ht Hs].
  destruct (Ht H4) as [[inst' argv'] E].
  exists inst', argv'. split; [exact E|].
  destruct (Hs inst' argv' E) as [_ Hout].
  destruct (Hout H5) as (_ & Hl & Hi). split; [exact Hl|exact Hi].
Defined.

(** C3, as stated, fails: with a null line and a buffer holding the two
    tokens of an earlier parse, [parse] returns with every slot of the
    buffer set to null. *)
Lemma null_line_clears_buffer :
  parse 100 3 None (Some (mkInstruction (Some "ls") 0 None))
    (Some [Some "ls"; Some "-la"; None])
  = Done (Some (mkInstruction (Some "ls") 0 None), Some [None; None; None]) ∧
  [None; None; None] ≠ [Some "ls"; Some "-la"; @None string].
Proof. split; [reflexivity|discriminate]. Qed.

(** C3 (amended): for every parse call in which the line, the Instruction
    destination or the argv destination is null, [parse] changes no field
    of the Instruction; a non-null argv of at least [MAXARGS] slots has its
    first [MAXARGS] slots set to null and the others left as they were, and
    a null argv is left alone. *)
Theorem parse_null_argument MAXLINE MAXARGS cmd_line inst (argv : option slots) :
  cmd_line = None ∨ inst = None ∨ argv = None →
  (∀ a, argv = Some a → (MAXARGS ≤ length a)%nat) →
  parse MAXLINE MAXARGS cmd_line inst argv
  = Done (inst, (λ a, replicate MAXARGS None ++ drop MAXARGS a) <$> argv).
Proof.
  intros Hnull Hlen. unfold parse, initialize_argv_n.
  destruct argv as [a|]; simpl.
  - rewrite clear_slots_spec by (simpl; auto). simpl.
    destruct Hnull as [->|[->|?]]; [|by destruct cmd_line|done].
    by destruct inst.
  - by destruct cmd_line, inst.
Qed.

Lemma parse_null_argument_witness :
  (@None string = None ∨ Some (mkInstruction (Some "ls") 0 None) = None
   ∨ Some [Some "ls"; Some "-la"; @None string] = None) ∧
  parse 100 3 None (Some (mkInstruction (Some "ls") 0 None))
    (Some [Some "ls"; Some "-la"; None])
  = Done (Some (mkInstruction (Some "ls") 0 None), Some [None; None; None]).
Proof.
  split; [left; reflexivity|].
  apply (parse_null_argument 100 3 None (Some (mkInstruction (Some "ls") 0 None))
           (Some [Some "ls"; Some "-la"; None])).
  - left. reflexivity.
  - intros a Ha. injection Ha as <-. simpl. lia.
Defined.

(** C4, as stated, fails: the line made of one tab is all whitespace for
    [is_whitespace], yet [parse] makes the tab the instruction name and
    stores it as a token. *)
Lemma tab_line_is_a_token :
  is_whitespace (Some (String TAB "")) = true ∧
  parse 100 25 (Some (String TAB "")) (Some (mkInstruction None 0 None))
    (Some (replicate 25 None))
  = Done (Some (mkInstruction (Some (String TAB "")) 0 None),
          Some (Some (String TAB "") :: replicate 24 None)).
Proof. split; vm_compute; reflexivity. Qed.

(** C4 (amended): for every input line that fits the scratch array and is
    empty or consists entirely of space characters, [parse] returns
    normally and leaves the name absent, the id 0, the file absent and no
    token in the buffer. *)
Theorem parse_blank_line MAXLINE MAXARGS line inst (argv : slots) :
  all_spaces (c_string line) = true → fits MAXLINE line →
  length argv = MAXARGS →
  parse MAXLINE MAXARGS (Some line) (Some inst) (Some argv)
  = Done (Some (mkInstruction None 0 None), Some (replicate MAXARGS None)).
Proof.
  intros Hsp Hfit Hlen. rewrite parse_initialized by done.
  destruct (strncpy_view line MAXLINE) as (s1 & s2 & tail & Ht & Hs & Eb & Ec & Hp).
  destruct (Hp Hfit) as [pad ->].
  destruct (strtok_total s1 pad Hs) as [first E1].
  pose proof (strtok_sound _ _ _ _ Ht Hs E1) as Hfirst.
  rewrite <- Ec, (tokens_all_spaces _ Hsp) in Hfirst.
  rewrite <- Eb in E1. unfold parse_n. rewrite E1.
  destruct first as [[t save]|]; [|done].
  by destruct Hfirst as (? & _ & _ & ?).
Qed.

Lemma parse_blank_line_witness :
  all_spaces (c_string "   ") = true ∧ fits 100 "   " ∧
  length (replicate 25 (@None string)) = 25%nat ∧
  parse 100 25 (Some "   ") (Some (mkInstruction (Some "old") 9 None))
    (Some (replicate 25 None))
  = Done (Some (mkInstruction None 0 None), Some (replicate 25 None)).
Proof.
  assert (H1 : all_spaces (c_string "   ") = true) by reflexivity.
  assert (H2 : fits 100 "   ") by (unfold fits; simpl; lia).
  assert (H3 : length (replicate 25 (@None string)) = 25%nat) by reflexivity.
  split_and!; [exact H1|exact H2|exact H3|].
  exact (parse_blank_line 100 25 "   " _ _ H1 H2 H3).
Defined.

(** C5: for every parse call whose line produces at least one token (the
    buffer having room for three tokens), the file field is populated if
    and only if the first token is a member of the file-bearing table and a
    third token exists; it is then the third token, verbatim. An
    instruction outside the table never has the file populated. A line
    that fits the scratch array always gets this result. *)
Theorem parse_file_field MAXLINE MAXARGS line inst (argv : slots) t0 rest :
  (4 ≤ MAXARGS)%nat → length argv = MAXARGS →
  line_tokens line = t0 :: rest →
  (fits MAXLINE line →
   ∃ r, parse MAXLINE MAXARGS (Some line) (Some inst) (Some argv) = Done r) ∧
  ∀ inst' argv',
    parse MAXLINE MAXARGS (Some line) (Some inst) (Some argv)
    = Done (Some inst', argv') →
    file inst'
    = (if bool_decide (t0 ∈ instructs_with_file) then rest !! 1%nat else None) ∧
    parse_file_token (rest !! 1%nat) (Some t0) (Some None)
    = (bool_decide (t0 ∈ instructs_with_file) && bool_decide (is_Some (rest !! 1%nat)),
       Some (file inst')).
Proof.
  intros Hcap Hlen Htok.
  assert (3 ≤ MAXARGS)%nat as Hcap3 by lia.
  split; [intros Hfit; by apply parse_total|].
  intros inst' argv' H. apply (parse_sound _ _ Hcap3 _ _ _ _ Hlen) in H.
  pose proof (line_tokens_no_nul line) as Hnn. rewrite Htok in H, Hnn.
  apply Forall_cons in Hnn as [Hn0 _].
  destruct MAXARGS as [|[|[|[|m]]]]; [lia..|]. simpl in H.
  injection H as -> _. cbn [file].
  rewrite lookup_take_lt by lia.
  destruct (rest !! 1%nat) as [t2|].
  - rewrite parse_file_token_spec by done.
    by destruct (bool_decide (t0 ∈ instructs_with_file)).
  - simpl. rewrite andb_false_r.
    by destruct (bool_decide (t0 ∈ instructs_with_file)).
Qed.

Lemma parse_file_field_witness :
  (4 ≤ 25)%nat ∧ length (replicate 25 (@None string)) = 25%nat ∧
  line_tokens "log 1 notes.txt" = ["log"; "1"; "notes.txt"] ∧
  fits 100 "log 1 notes.txt" ∧
  ∃ inst' argv',
    parse 100 25 (Some "log 1 notes.txt") (Some (mkInstruction None 0 None))
      (Some (replicate 25 None)) = Done (Some inst', argv') ∧
    file inst' = Some "notes.txt".
Proof.
  assert (H1 : (4 ≤ 25)%nat) by lia.
  assert (H2 : length (replicate 25 (@None string)) = 25%nat) by reflexivity.
  assert (H3 : line_tokens "log 1 notes.txt" = ["log"; "1"; "notes.txt"])
    by reflexivity.
  assert (H4 : fits 100 "log 1 notes.txt") by (unfold fits; simpl; lia).
  split_and!; [exact H1|exact H2|exact H3|exact H4|].
  destruct (parse_file_field 100 25 "log 1 notes.txt" (mkInstruction None 0 None)
              _ _ _ H1 H2 H3) as [Ht Hs].
  destruct (Ht H4) as [[[inst'|] argv'] E]; [|discriminate E].
  exists inst', argv'. split; [exact E|].
  destruct (Hs inst' argv' E) as [Hf _]. exact Hf.
Defined.

(** C6: for every input line, the tokenization loop of [parse] stores the
    first [MAXARGS - 1] tokens of the line, in input order from slot 0, and
    no more; the buffer [parse] returns holds at most [MAXARGS - 1] live
    tokens, a prefix of the tokens of the line, and all of the first
    [MAXARGS - 1] when the first token is not a recognized instruction.
    The tokens beyond are dropped without an error: a line that fits the
    scratch array is parsed to a normal return whatever its number of
    tokens. *)
Theorem parse_token_limit MAXLINE MAXARGS line inst (argv : slots) :
  (3 ≤ MAXARGS)%nat → length argv = MAXARGS →
  let stored := take (MAXARGS - 1) (line_tokens line) in
  (fits MAXLINE line →
   ∃ r, parse MAXLINE MAXARGS (Some line) (Some inst) (Some argv) = Done r) ∧
  (∀ p_tok save av,
     strtok (strncpy line MAXLINE) " " = Done (Some (p_tok, save)) →
     store_tokens (MAXARGS - 1 - 1) p_tok save 0 (replicate MAXARGS None)
     = Done av →
     av = (Some <$> stored) ++ replicate (MAXARGS - length stored) None) ∧
  ∀ inst' argv',
    parse MAXLINE MAXARGS (Some line) (Some inst) (Some argv)
    = Done (inst', argv') →
    ∃ a, argv' = Some a ∧ length a = MAXARGS ∧
         (length (live a) ≤ MAXARGS - 1)%nat ∧
         live a `prefix_of` line_tokens line ∧
         (∀ t0, head (line_tokens line) = Some t0 →
                t0 ∉ instructs_list_full → live a = stored).
Proof.
  intros Hcap Hlen stored.
  assert (stored = take (MAXARGS - 1) (line_tokens line)) as Hdef by done.
  clearbody stored.
  assert (length stored ≤ MAXARGS - 1)%nat as Hst
    by (subst stored; rewrite length_take; lia).
  split_and!.
  - intros Hfit. by apply parse_total.
  - intros p_tok save av E1 E2.
    pose proof (tokenization_sound _ _ _ _ _ _ _ _ E1 E2) as Hav.
    replace (S (MAXARGS - 1 - 1)) with (MAXARGS - 1)%nat in Hav by lia.
    rewrite <- Hdef in Hav. simpl in Hav.
    by rewrite drop_replicate in Hav.
  - intros inst' argv' H. apply (parse_sound _ _ Hcap _ _ _ _ Hlen) in H.
    rewrite <- Hdef in H. unfold parsed in H.
    pose proof (line_tokens_no_nul line) as Hnn.
    destruct (line_tokens line) as [|x toks] eqn:Elt.
    + rewrite take_nil in Hdef. subst stored. injection H as _ ->.
      eexists. split; [done|].
      rewrite length_replicate, live_replicate_None. simpl.
      split_and!; [done|lia|apply prefix_nil|done].
    + assert (∃ rest, stored = x :: rest) as [rest Est].
      { destruct MAXARGS as [|[|m]]; [lia..|]. simpl in Hdef. eauto. }
      apply Forall_cons in Hnn as [Hn0 _]. rewrite Est in H.
      rewrite contains_full in H by done. injection H as _ ->.
      destruct (bool_decide (x ∈ instructs_list_full)) eqn:Ein.
      * eexists. split; [done|].
        rewrite length_replicate, live_replicate_None. simpl.
        split_and!; [done|lia|apply prefix_nil|].
        intros t0' [= <-]. by apply bool_decide_eq_true in Ein.
      * eexists. split; [done|].
        change (Some x :: list_fmap _ _ Some rest ++ ?r)
          with ((Some <$> x :: rest) ++ r).
        change (S (length rest)) with (length (x :: rest)). rewrite <- Est.
        rewrite length_stored by lia. rewrite !live_stored.
        split_and!; [done|done| |done].
        rewrite Hdef. apply prefix_take.
Qed.

Lemma parse_token_limit_witness :
  (3 ≤ 3)%nat ∧ length (replicate 3 (@None string)) = 3%nat ∧
  fits 100 "make -j 8 all" ∧
  ∃ inst' a,
    parse 100 3 (Some "make -j 8 all") (Some (mkInstruction None 0 None))
      (Some (replicate 3 None)) = Done (inst', Some a) ∧
    live a = ["make"; "-j"].
Proof.
  assert (H1 : (3 ≤ 3)%nat) by lia.
  assert (H2 : length (replicate 3 (@None string)) = 3%nat) by reflexivity.
  assert (H3 : fits 100 "make -j 8 all") by (unfold fits; simpl; lia).
  split_and!; [exact H1|exact H2|exact H3|].
  destruct (parse_token_limit 100 3 "make -j 8 all" (mkInstruction None 0 None)
              _ H1 H2) as (Ht & _ & Hs).
  destruct (Ht H3) as [[inst' argv'] E].
  destruct (Hs inst' argv' E) as (a & -> & _ & _ & _ & Hl).
  exists inst', a. split; [exact E|].
  apply (Hl "make"); [reflexivity|].
  apply (bool_decide_unpack _). reflexivity.
Defined.

Lemma strncpy_repeat_char n k :
  strncpy (repeat_char "a" (n + k)) n = repeat_char "a" n.
Proof. induction n as [|n IH]; simpl; [done|]. by rewrite IH. Qed.

Lemma strtok_scan_repeat_char n : strtok_scan (repeat_char "a" n) " " = Overrun.
Proof. induction n as [|n IH]; simpl; [done|]. by rewrite IH. Qed.

Lemma strtok_repeat_char n : strtok (repeat_char "a" n) " " = Overrun.
Proof. destruct n; simpl; [done|]. by rewrite strtok_scan_repeat_char. Qed.

Lemma strncpy_string_take s n : strncpy (string_take n s) n = strncpy s n.
Proof.
  revert s. induction n as [|n IH]; intros [|c r]; simpl; try done.
  destruct (is_nul c); [done|]. by rewrite IH.
Qed.

(** [parse] reads the line through the scratch array only, so a line and
    its first [MAXLINE] characters have the same outcome, be it a normal
    return or a read outside the array. *)
Lemma parse_reads_scratch_only MAXLINE MAXARGS line inst argv :
  parse MAXLINE MAXARGS (Some line) inst argv
  = parse MAXLINE MAXARGS (Some (string_take MAXLINE line)) inst argv.
Proof.
  unfold parse. destruct (initialize_argv_n argv MAXARGS) as [[b a]|]; [|done].
  simpl. destruct inst as [i|], a as [a|]; try done.
  by rewrite strncpy_string_take.
Qed.

(** C7 fails on the code: [strncpy] copies [MAXLINE] characters into the
    array of [MAXLINE] characters, so a line of [MAXLINE] or more
    characters leaves no terminator in it. The line of [MAXLINE + k]
    letters is not silently parsed as its first [MAXLINE] characters:
    [strtok] reads past the end of the array, for every [k] (the truncated
    line itself is [k = 0]). *)
Theorem parse_overlong_line_overrun MAXLINE MAXARGS k inst (argv : slots) :
  parse MAXLINE MAXARGS (Some (repeat_char "a" (MAXLINE + k))) (Some inst)
    (Some argv)
  = Overrun.
Proof.
  unfold parse, initialize_argv_n.
  destruct (clear_slots MAXARGS 0 argv) as [a|]; [|done]. simpl.
  by rewrite strncpy_repeat_char, strtok_repeat_char.
Qed.

(** C8: releasing an Instruction twice yields the state releasing it once
    does, and [free_instruction] leaves an Instruction whose name and file
    are already absent as it is. *)
Theorem free_instruction_idempotent (inst : option Instruction) :
  free_instruction (free_instruction inst) = free_instruction inst ∧
  (∀ i, inst = Some i → instruct i = None → file i = None →
        free_instruction inst = inst) ∧
  (∀ i, free_instruction inst = Some i → instruct i = None ∧ file i = None).
Proof.
  split_and!.
  - by destruct inst.
  - intros [n d f] -> Hn Hf. simpl in *. by subst.
  - intros i H. destruct inst; [|done]. by injection H as <-.
Qed.

Lemma free_instruction_idempotent_witness :
  free_instruction (Some (mkInstruction None 5 None))
  = Some (mkInstruction None 5 None).
Proof.
  destruct (free_instruction_idempotent (Some (mkInstruction None 5 None)))
    as (_ & H & _).
  apply (H (mkInstruction None 5 None)); reflexivity.
Defined.

(** C9: a token buffer of [MAXARGS] slots is sentinel-terminated after
    [initialize_argv] and after every parse call that returns: at most
    [MAXARGS - 1] live tokens, the slot after the last of them null, and
    no live token after a null slot. A parse call whose line, when there
    is one, fits the scratch array always returns. *)
Theorem token_buffer_terminated MAXLINE MAXARGS (argv : slots) :
  (3 ≤ MAXARGS)%nat → length argv = MAXARGS →
  (∃ a, initialize_argv MAXARGS (Some argv) = Done (true, Some a) ∧
        terminated MAXARGS a) ∧
  (∀ cmd_line inst,
     (∀ line, cmd_line = Some line → fits MAXLINE line) →
     ∃ r, parse MAXLINE MAXARGS cmd_line inst (Some argv) = Done r) ∧
  (∀ cmd_line inst inst' argv',
     parse MAXLINE MAXARGS cmd_line inst (Some argv) = Done (inst', argv') →
     ∃ a, argv' = Some a ∧ terminated MAXARGS a).
Proof.
  intros Hcap Hlen.
  assert (terminated MAXARGS (replicate MAXARGS None)) as Hinit.
  { pose proof (terminated_stored MAXARGS []) as H. simpl in H.
    rewrite Nat.sub_0_r in H. apply H; lia. }
  split_and!.
  - exists (replicate MAXARGS None). split; [|done].
    by apply initialize_argv_n_spec.
  - intros [line|] [inst|] Hfit;
      [apply parse_total; [done..|by apply Hfit]|
       rewrite parse_initialized by done; by eexists..].
  - intros [line|] [inst|] inst' argv' H.
    + apply (parse_sound _ _ Hcap _ _ _ _ Hlen) in H.
      set (stored := take (MAXARGS - 1) (line_tokens line)) in *.
      assert (length stored ≤ MAXARGS - 1)%nat as Hst
        by (subst stored; rewrite length_take; lia).
      clearbody stored. unfold parsed in H.
      destruct stored as [|t0 rest]; [injection H as _ ->; eauto|].
      injection H as _ ->.
      destruct (contains (Some t0) instructs_list_full); [eauto|].
      eexists. split; [done|].
      apply (terminated_stored MAXARGS (t0 :: rest)); [done|lia].
    + rewrite parse_initialized in H by done. injection H as _ <-. eauto.
    + rewrite parse_initialized in H by done. injection H as _ <-. eauto.
    + rewrite parse_initialized in H by done. injection H as _ <-. eauto.
Qed.

Lemma token_buffer_terminated_witness :
  (3 ≤ 4)%nat ∧ length (replicate 4 (Some "stale")) = 4%nat ∧
  ∃ inst' a,
    parse 100 4 (Some "./a.out 1 2 3 4") (Some (mkInstruction None 0 None))
      (Some (replicate 4 (Some "stale"))) = Done (inst', Some a) ∧
    terminated 4 a.
Proof.
  assert (H1 : (3 ≤ 4)%nat) by lia.
  assert (H2 : length (replicate 4 (Some "stale")) = 4%nat) by reflexivity.
  split_and!; [exact H1|exact H2|].
  destruct (token_buffer_terminated 100 4 _ H1 H2) as (_ & Ht & Hs).
  destruct (Ht (Some "./a.out 1 2 3 4") (Some (mkInstruction None 0 None)))
    as [[inst' argv'] E].
  { intros line Hl. injection Hl as <-. unfold fits. simpl. lia. }
  destruct (Hs _ _ _ _ E) as (a & -> & Ha).
  exists inst', a. split; [exact E|exact Ha].
Defined.

(** C10: there are an id-bearing instruction ("delete") and a second token
    that is a complete base-10 integer beyond the range of [int]
    ("2147483648") for which [parse_id_token] returns true and [parse]
    leaves as id the value reduced modulo 2^32 into the range of [int],
    -2147483648: neither the value of the token nor the default 0. *)
Theorem parse_id_narrowed MAXLINE MAXARGS inst (argv : slots) :
  (3 ≤ MAXARGS)%nat → length argv = MAXARGS → (17 < MAXLINE)%nat →
  ∃ name tok value narrowed,
    name ∈ instructs_with_id ∧
    decimal_literal tok = true ∧
    strtol tok = (value, String.length tok) ∧
    INT_MAX < value ∧
    narrowed = int_of_long value ∧
    (value - narrowed) mod 2 ^ 32 = 0 ∧
    narrowed ≠ value ∧ narrowed ≠ 0 ∧
    parse_id_token (Some tok) (Some name) (Some 0) = (true, Some narrowed) ∧
    parse MAXLINE MAXARGS (Some (name +:+ " " +:+ tok)) (Some inst) (Some argv)
    = Done (Some (mkInstruction (Some name) narrowed None),
            Some (replicate MAXARGS None)).
Proof.
  intros Hcap Hlen Hline.
  exists "delete", "2147483648", 2147483648, (-2147483648).
  split_and!.
  - apply (bool_decide_unpack _). reflexivity.
  - reflexivity.
  - reflexivity.
  - reflexivity.
  - reflexivity.
  - reflexivity.
  - discriminate.
  - discriminate.
  - reflexivity.
  - destruct (parse_total MAXLINE MAXARGS Hcap "delete 2147483648" inst argv Hlen)
      as [r E]; [simpl; lia|].
    change ("delete" +:+ " " +:+ "2147483648") with "delete 2147483648".
    rewrite E. f_equal.
    apply (parse_sound _ _ Hcap _ _ _ _ Hlen) in E. rewrite E.
    change (line_tokens "delete 2147483648") with ["delete"; "2147483648"].
    rewrite take_ge by (simpl; lia). unfold parsed.
    change (parse_id_token _ _ _) with (true, Some (-2147483648)).
    by change (contains _ _) with true.
Qed.

Lemma parse_id_narrowed_witness :
  (3 ≤ 25)%nat ∧ length (replicate 25 (@None string)) = 25%nat ∧
  (17 < 100)%nat ∧
  ∃ name tok narrowed,
    parse 100 25 (Some (name +:+ " " +:+ tok)) (Some (mkInstruction None 0 None))
      (Some (replicate 25 None))
    = Done (Some (mkInstruction (Some name) narrowed None),
            Some (replicate 25 None)) ∧
    narrowed ≠ 0.
Proof.
  assert (H1 : (3 ≤ 25)%nat) by lia.
  assert (H2 : length (replicate 25 (@None string)) = 25%nat) by reflexivity.
  assert (H3 : (17 < 100)%nat) by lia.
  split_and!; [exact H1|exact H2|exact H3|].
  destruct (parse_id_narrowed 100 25 (mkInstruction None 0 None) _ H1 H2 H3)
    as (name & tok & value & narrowed & _ & _ & _ & _ & _ & _ & _ & Hn & _ & E).
  exists name, tok, narrowed. split; [exact E|exact Hn].
Defined.

(** ** The sample lines of the specification, for every table entry *)

Lemma parse_fitting MAXLINE MAXARGS line inst (argv : slots) :
  (3 ≤ MAXARGS)%nat → length argv = MAXARGS → fits MAXLINE line →
  parse MAXLINE MAXARGS (Some line) (Some inst) (Some argv)
  = Done (parsed MAXARGS (take (MAXARGS - 1) (line_tokens line))).
Proof.
  intros Hcap Hlen Hfit.
  destruct (parse_total _ _ Hcap line inst argv Hlen Hfit) as [r E].
  rewrite E. f_equal. by apply (parse_sound _ _ Hcap _ _ _ _ Hlen) in E.
Qed.

(** For every instruction of the id-bearing table, "<name> 42" yields the
    id 42, and "<name> 4x" and "<name> " leave the id absent. *)
Lemma id_bearing_samples MAXLINE MAXARGS name inst (argv : slots) tail :
  (3 ≤ MAXARGS)%nat → length argv = MAXARGS → (11 ≤ MAXLINE)%nat →
  name ∈ instructs_with_id → tail ∈ [" 42"; " 4x"; " "] →
  ∃ inst' argv',
    parse MAXLINE MAXARGS (Some (name +:+ tail)) (Some inst) (Some argv)
    = Done (Some inst', argv') ∧
    instruct inst' = Some name ∧
    id inst' = if bool_decide (tail = " 42") then 42 else 0.
Proof.
  intros Hcap Hlen Hline Hname Htail.
  assert (fits MAXLINE (name +:+ tail)) as Hfit.
  { unfold fits. revert Hline.
    repeat (apply elem_of_cons in Hname as [->|Hname]);
      [..|by apply elem_of_nil in Hname];
      repeat (apply elem_of_cons in Htail as [->|Htail]);
      try (by apply elem_of_nil in Htail); simpl; lia. }
  rewrite parse_fitting by done.
  assert (∃ toks, line_tokens (name +:+ tail) = name :: toks ∧
                  (length toks ≤ 1)%nat ∧
                  default 0 (parse_id_token (toks !! 0%nat) (Some name) (Some 0)).2
                  = (if bool_decide (tail = " 42") then 42 else 0))
    as (toks & -> & Hl & Hid).
  { repeat (apply elem_of_cons in Hname as [->|Hname]);
      [..|by apply elem_of_nil in Hname];
      repeat (apply elem_of_cons in Htail as [->|Htail]);
      try (by apply elem_of_nil in Htail);
      first [ exists ["42"]; split_and!; [reflexivity|simpl; lia|reflexivity]
            | exists ["4x"]; split_and!; [reflexivity|simpl; lia|reflexivity]
            | exists []; split_and!; [reflexivity|simpl; lia|reflexivity] ]. }
  rewrite take_ge by (simpl; lia). unfold parsed.
  destruct toks as [|t1 [|t2 toks]]; [| |simpl in Hl; lia];
    eexists _, _; (split; [reflexivity|]); split; [done|exact Hid|done|exact Hid].
Qed.

(** For every instruction of the file-bearing table, "<name> 1 notes.txt"
    yields the file "notes.txt" and the id 1. *)
Lemma file_bearing_samples MAXLINE MAXARGS name inst (argv : slots) :
  (4 ≤ MAXARGS)%nat → length argv = MAXARGS → (16 ≤ MAXLINE)%nat →
  name ∈ instructs_with_file →
  ∃ inst' argv',
    parse MAXLINE MAXARGS (Some (name +:+ " 1 notes.txt")) (Some inst) (Some argv)
    = Done (Some inst', argv') ∧
    instruct inst' = Some name ∧ id inst' = 1 ∧ file inst' = Some "notes.txt".
Proof.
  intros Hcap Hlen Hline Hname.
  assert (fits MAXLINE (name +:+ " 1 notes.txt") ∧
          line_tokens (name +:+ " 1 notes.txt") = [name; "1"; "notes.txt"] ∧
          parse_id_token (Some "1") (Some name) (Some 0) = (true, Some 1) ∧
          parse_file_token (Some "notes.txt") (Some name) (Some None)
          = (true, Some (Some "notes.txt")))
    as (Hfit & Htok & Hid & Hfile).
  { unfold fits.
    repeat (apply elem_of_cons in Hname as [->|Hname]);
      [..|by apply elem_of_nil in Hname];
      (split_and!; [simpl; lia|reflexivity..]). }
  rewrite parse_fitting by (done || lia). rewrite Htok.
  rewrite take_ge by (simpl; lia). unfold parsed. cbn [lookup list_lookup].
  rewrite Hid, Hfile. by eexists _, _.
Qed.

(** ** Further properties of the code *)

(** *** The table lookup *)

(** X1: [contains] is exact membership: a NUL-free needle is found in a
    table of NUL-free names exactly when it equals one of them, whole and
    with the same case; a null needle is never found. *)
Theorem contains_exact_member needle table :
  no_nul needle = true → Forall (λ h, no_nul h = true) table →
  contains None table = false ∧
  (contains (Some needle) table = true ↔ needle ∈ table).
Proof.
  intros Hn Ht. split; [done|]. by apply contains_from_elem.
Qed.

Lemma contains_exact_member_witness :
  no_nul "run" = true ∧
  Forall (λ h, no_nul h = true) instructs_with_file ∧
  contains (Some "run") instructs_with_file = true ∧
  "run" ∈ instructs_with_file.
Proof.
  assert (H1 : no_nul "run" = true) by reflexivity.
  assert (H2 : Forall (λ h, no_nul h = true) instructs_with_file)
    by (repeat constructor).
  split_and!; [exact H1|exact H2|reflexivity|].
  destruct (contains_exact_member "run" instructs_with_file H1 H2) as [_ Hiff].
  apply Hiff. reflexivity.
Defined.

Lemma contains_from_incl needle (small big : list string) :
  small ⊆ big → contains_from needle small = true →
  contains_from needle big = true.
Proof.
  intros Hincl. induction small as [|h rest IH]; simpl; [done|].
  destruct (strncmp needle h (strlen h + 1) =? 0) eqn:E.
  - intros _. assert (h ∈ big) as Hin by (apply Hincl; left).
    clear Hincl IH. induction big as [|b big IHb]; [by apply elem_of_nil in Hin|].
    simpl. apply elem_of_cons in Hin as [<-|Hin]; [by rewrite E|].
    destruct (strncmp needle b (strlen b + 1) =? 0); auto.
  - apply IH. intros x Hx. apply Hincl. by right.
Qed.

(** X2: the three tables are nested for [contains], whatever the needle:
    a name found in the file table is found in the id table, and a name
    found in the id table is found in the full list. *)
Theorem tables_nested needle :
  (contains needle instructs_with_file = true →
   contains needle instructs_with_id = true) ∧
  (contains needle instructs_with_id = true →
   contains needle instructs_list_full = true).
Proof.
  destruct needle as [s|]; [|done]. unfold contains. split.
  - apply contains_from_incl. intros x Hx.
    repeat (apply elem_of_cons in Hx as [->|Hx]);
      [..|by apply elem_of_nil in Hx]; apply (bool_decide_unpack _); reflexivity.
  - apply contains_from_incl. intros x Hx.
    repeat (apply elem_of_cons in Hx as [->|Hx]);
      [..|by apply elem_of_nil in Hx]; apply (bool_decide_unpack _); reflexivity.
Qed.

Lemma tables_nested_witness :
  contains (Some "log") instructs_with_file = true ∧
  contains (Some "log") instructs_list_full = true.
Proof.
  assert (H1 : contains (Some "log") instructs_with_file = true) by reflexivity.
  split; [exact H1|].
  destruct (tables_nested (Some "log")) as [Hf Hi]. exact (Hi (Hf H1)).
Defined.

(** *** Initialization *)

(** X3: [initialize_command] reports success exactly when both
    destinations are non-null. With a null Instruction it touches nothing,
    the buffer included; with a null buffer it still resets the
    Instruction before reporting failure; with both, the Instruction has
    the defaults and the first [MAXARGS] slots are null, the later slots
    of a longer array keeping their value. *)
Theorem initialize_command_cases MAXARGS inst (argv : option slots) :
  (∀ a, argv = Some a → (MAXARGS ≤ length a)%nat) →
  initialize_command MAXARGS inst argv
  = Done (bool_decide (is_Some inst ∧ is_Some argv),
          (λ _, mkInstruction None 0 None) <$> inst,
          match inst with
          | None => argv
          | Some _ => (λ a, replicate MAXARGS None ++ drop MAXARGS a) <$> argv
          end).
Proof.
  intros Hlen. unfold initialize_command, initialize_instruction.
  destruct inst as [i|]; simpl; [|done].
  unfold initialize_argv, initialize_argv_n. destruct argv as [a|]; simpl.
  - rewrite clear_slots_spec by (simpl; auto). done.
  - done.
Qed.

Lemma initialize_command_cases_witness :
  initialize_command 2 (Some (mkInstruction (Some "run") 4 None)) None
  = Done (false, Some (mkInstruction None 0 None), None) ∧
  initialize_command 2 None (Some [Some "a"; Some "b"; Some "c"])
  = Done (false, None, Some [Some "a"; Some "b"; Some "c"]) ∧
  initialize_command 2 (Some (mkInstruction (Some "run") 4 None))
    (Some [Some "a"; Some "b"; Some "c"])
  = Done (true, Some (mkInstruction None 0 None), Some [None; None; Some "c"]).
Proof.
  split_and!.
  - apply (initialize_command_cases 2 (Some (mkInstruction (Some "run") 4 None)) None).
    intros a Ha. discriminate Ha.
  - apply (initialize_command_cases 2 None (Some [Some "a"; Some "b"; Some "c"])).
    intros a Ha. injection Ha as <-. simpl. lia.
  - apply (initialize_command_cases 2 (Some (mkInstruction (Some "run") 4 None))
             (Some [Some "a"; Some "b"; Some "c"])).
    intros a Ha. injection Ha as <-. simpl. lia.
Defined.

(** *** What [parse] depends on *)

Lemma length_parsed cap stored inst' (a' : slots) :
  (length stored ≤ cap - 1)%nat → (1 ≤ cap)%nat →
  parsed cap stored = (inst', Some a') → length a' = cap.
Proof.
  intros Hl Hc. unfold parsed. destruct stored as [|t0 rest].
  - intros [= _ <-]. apply length_replicate.
  - destruct (contains (Some t0) instructs_list_full); intros [= _ <-].
    + apply length_replicate.
    + apply (length_stored cap (t0 :: rest)). lia.
Qed.

(** X4: [parse] overwrites its destinations: with a line given, the
    outcome does not depend on what the Instruction and a buffer of
    [MAXARGS] slots held before the call. Hence parsing after
    [initialize_command] is parsing, and parsing a line again into the
    result of parsing it changes nothing. *)
Theorem parse_overwrites MAXLINE MAXARGS line inst1 inst2 (argv1 argv2 : slots) :
  (3 ≤ MAXARGS)%nat → length argv1 = MAXARGS → length argv2 = MAXARGS →
  parse MAXLINE MAXARGS (Some line) (Some inst1) (Some argv1)
  = parse MAXLINE MAXARGS (Some line) (Some inst2) (Some argv2) ∧
  (∀ ok inst0 argv0,
     initialize_command MAXARGS (Some inst1) (Some argv1)
     = Done (ok, inst0, argv0) →
     parse MAXLINE MAXARGS (Some line) inst0 argv0
     = parse MAXLINE MAXARGS (Some line) (Some inst1) (Some argv1)) ∧
  (∀ inst' argv',
     parse MAXLINE MAXARGS (Some line) (Some inst1) (Some argv1)
     = Done (Some inst', Some argv') →
     parse MAXLINE MAXARGS (Some line) (Some inst') (Some argv')
     = Done (Some inst', Some argv')).
Proof.
  intros Hcap Hl1 Hl2.
  assert (∀ i j (a b : slots), length a = MAXARGS → length b = MAXARGS →
            parse MAXLINE MAXARGS (Some line) (Some i) (Some a)
            = parse MAXLINE MAXARGS (Some line) (Some j) (Some b)) as Hind.
  { intros i j a b Ha Hb. by rewrite !parse_initialized by done. }
  split_and!.
  - by apply Hind.
  - intros ok inst0 argv0 H.
    rewrite initialize_command_cases in H by (intros a [= <-]; lia).
    injection H as _ <- <-. simpl. apply Hind; [|done].
    rewrite length_app, length_replicate, length_drop. lia.
  - intros inst' argv' H. rewrite <- H. apply Hind; [|done].
    apply (parse_sound _ _ Hcap _ _ _ _ Hl1) in H. symmetry in H.
    apply length_parsed in H; [done| |lia]. rewrite length_take. lia.
Qed.

Lemma parse_overwrites_witness :
  (3 ≤ 3)%nat ∧ length [Some "x"; None; Some "y"] = 3%nat ∧
  length (replicate 3 (@None string)) = 3%nat ∧
  parse 100 3 (Some "bg 2") (Some (mkInstruction (Some "old") 9 (Some "f")))
    (Some [Some "x"; None; Some "y"])
  = parse 100 3 (Some "bg 2") (Some (mkInstruction None 0 None))
      (Some (replicate 3 None)).
Proof.
  assert (H1 : (3 ≤ 3)%nat) by lia.
  assert (H2 : length [Some "x"; None; Some "y"] = 3%nat) by reflexivity.
  assert (H3 : length (replicate 3 (@None string)) = 3%nat) by reflexivity.
  split_and!; [exact H1|exact H2|exact H3|].
  destruct (parse_overwrites 100 3 "bg 2" (mkInstruction (Some "old") 9 (Some "f"))
              (mkInstruction None 0 None) _ _ H1 H2 H3) as (H & _ & _).
  exact H.
Defined.

(** *** Blank lines and the instruction name *)

Lemma isspace_not_nul c : isspace c = true → is_nul c = false.
Proof.
  intros H. destruct (is_nul c) eqn:E; [|done].
  apply Ascii.eqb_eq in E. subst c. discriminate H.
Qed.

Lemma isspace_space : isspace " " = true.
Proof. reflexivity. Qed.

Lemma tokens_nil_all_spaces s : tokens s = [] → all_spaces s = true.
Proof.
  induction s as [|c r IH]; [done|]. simpl.
  destruct (Ascii.eqb c " ") eqn:E.
  - apply Ascii.eqb_eq in E as ->. rewrite tokens_space. auto.
  - by rewrite tokens_nonspace.
Qed.

Lemma not_whitespace_has_token s :
  is_whitespace_from s = false → tokens (c_string s) ≠ [].
Proof.
  induction s as [|c r IH]; simpl; [done|].
  destruct (isspace c) eqn:Es.
  - intros Hr. rewrite (isspace_not_nul c Es).
    destruct (Ascii.eqb c " ") eqn:E.
    + apply Ascii.eqb_eq in E as ->. rewrite tokens_space. auto.
    + by rewrite tokens_nonspace.
  - intros Hc. rewrite Hc.
    destruct (Ascii.eqb c " ") eqn:E.
    + apply Ascii.eqb_eq in E as ->. by rewrite isspace_space in Es.
    + by rewrite tokens_nonspace.
Qed.

(** X5: for a line that fits the scratch array, [parse] returns with the
    first token of the line as the instruction name. The name is absent
    exactly when the line is empty or all spaces, and it is present for
    every line that [is_whitespace] does not classify as blank: a caller
    that skips the lines [is_whitespace] accepts always gets a name. *)
Theorem parse_name_present MAXLINE MAXARGS line inst (argv : slots) :
  (3 ≤ MAXARGS)%nat → length argv = MAXARGS → fits MAXLINE line →
  ∃ inst' argv',
    parse MAXLINE MAXARGS (Some line) (Some inst) (Some argv)
    = Done (Some inst', argv') ∧
    instruct inst' = head (line_tokens line) ∧
    (instruct inst' = None ↔ all_spaces (c_string line) = true) ∧
    (is_whitespace (Some line) = false → is_Some (instruct inst')).
Proof.
  intros Hcap Hlen Hfit. rewrite parse_fitting by done.
  assert (instruct <$> (parsed MAXARGS (take (MAXARGS - 1) (line_tokens line))).1
          = Some (head (line_tokens line))) as Hname.
  { destruct (line_tokens line) as [|t0 rest]; [by rewrite take_nil|].
    destruct MAXARGS as [|[|m]]; [lia..|]. done. }
  destruct (parsed MAXARGS (take (MAXARGS - 1) (line_tokens line)))
    as [[inst'|] argv']; [|done].
  simpl in Hname. injection Hname as Hname.
  exists inst', argv'. split_and!; [done|done| |].
  - rewrite Hname. unfold line_tokens. split.
    + intros H. apply tokens_nil_all_spaces. by destruct (tokens (c_string line)).
    + intros H. by rewrite tokens_all_spaces.
  - intros Hw. rewrite Hname. apply not_whitespace_has_token in Hw.
    unfold line_tokens. destruct (tokens (c_string line)); [done|by eexists].
Qed.

Lemma parse_name_present_witness :
  (3 ≤ 25)%nat ∧ length (replicate 25 (@None string)) = 25%nat ∧
  fits 100 "  tasks" ∧
  ∃ inst' argv',
    parse 100 25 (Some "  tasks") (Some (mkInstruction None 0 None))
      (Some (replicate 25 None)) = Done (Some inst', argv') ∧
    instruct inst' = Some "tasks".
Proof.
  assert (H1 : (3 ≤ 25)%nat) by lia.
  assert (H2 : length (replicate 25 (@None string)) = 25%nat) by reflexivity.
  assert (H3 : fits 100 "  tasks") by (unfold fits; simpl; lia).
  split_and!; [exact H1|exact H2|exact H3|].
  destruct (parse_name_present 100 25 "  tasks" (mkInstruction None 0 None)
              _ H1 H2 H3) as (inst' & argv' & E & Hn & _).
  exists inst', argv'. split; [exact E|exact Hn].
Defined.

(** *** The shape of the tokens *)

Lemma word_no_space s : no_space (word s) = true.
Proof.
  induction s as [|c r IH]; [done|]. simpl.
  destruct (Ascii.eqb c " ") eqn:E; [done|]. simpl. by rewrite E.
Qed.

Lemma tokens_shaped s : no_nul s = true → Forall token_shaped (tokens s).
Proof.
  remember (String.length s) as n eqn:Hn. revert s Hn.
  induction n as [n IH] using lt_wf_ind. intros s -> Hs.
  destruct s as [|c r]; [constructor|].
  apply no_nul_cons in Hs as [Hc Hr].
  destruct (Ascii.eqb c " ") eqn:E.
  - apply Ascii.eqb_eq in E as ->. rewrite tokens_space.
    eapply IH; [|done..]. simpl. lia.
  - rewrite tokens_nonspace by done. constructor.
    + split_and!; [done| |].
      * simpl. by rewrite E, word_no_space.
      * apply no_nul_cons. split; [done|]. by apply word_no_nul.
    + eapply (IH (String.length (after_word r))); [|done|by apply after_word_no_nul].
      pose proof (after_word_length r). simpl. lia.
Qed.

(** X6: whatever line [parse] is given, every token it leaves in the
    buffer, and the instruction name, is a non-empty text without a space
    and without a NUL. *)
Theorem parse_tokens_shaped MAXLINE MAXARGS line inst (argv : slots) inst' a' :
  (3 ≤ MAXARGS)%nat → length argv = MAXARGS →
  parse MAXLINE MAXARGS (Some line) (Some inst) (Some argv)
  = Done (Some inst', Some a') →
  Forall token_shaped (live a') ∧
  (∀ i t, a' !! i = Some (Some t) → token_shaped t) ∧
  (∀ name, instruct inst' = Some name → token_shaped name).
Proof.
  intros Hcap Hlen H. apply (parse_sound _ _ Hcap _ _ _ _ Hlen) in H.
  assert (Forall token_shaped (take (MAXARGS - 1) (line_tokens line))) as Hst
    by (apply Forall_take, tokens_shaped, c_string_no_nul).
  assert (length (take (MAXARGS - 1) (line_tokens line)) ≤ MAXARGS - 1)%nat as Hl
    by (rewrite length_take; lia).
  destruct (take (MAXARGS - 1) (line_tokens line)) as [|t0 rest];
    unfold parsed in H.
  - injection H as -> ->. rewrite live_replicate_None. split_and!; [done| |done].
    intros i t Hi. apply lookup_replicate in Hi as [? _]. done.
  - injection H as -> ->. cbn [instruct].
    assert (∀ name, Some t0 = Some name → token_shaped name) as Hname
      by (intros ? [= <-]; by apply Forall_cons in Hst as [? _]).
    destruct (contains (Some t0) instructs_list_full).
    + rewrite live_replicate_None. split_and!; [done| |done].
      intros i t Hi. apply lookup_replicate in Hi as [? _]. done.
    + change (Some t0 :: list_fmap _ _ Some rest ++ ?r)
        with ((Some <$> t0 :: rest) ++ r).
      change (S (length rest)) with (length (t0 :: rest)).
      rewrite (live_stored (t0 :: rest)). split_and!; [done| |done].
      intros i t Hi.
      destruct (decide (i < MAXARGS)%nat) as [Hlt|Hge].
      * rewrite (lookup_stored MAXARGS (t0 :: rest)) in Hi by lia.
        injection Hi as Hi. by eapply (proj1 (Forall_lookup _ _) Hst).
      * rewrite lookup_ge_None_2 in Hi; [done|].
        rewrite (length_stored MAXARGS (t0 :: rest)) by lia. lia.
Qed.

Lemma parse_tokens_shaped_witness :
  (3 ≤ 4)%nat ∧ length (replicate 4 (@None string)) = 4%nat ∧
  Forall token_shaped ["./a.out"; "-v"; "x"].
Proof.
  assert (H1 : (3 ≤ 4)%nat) by lia.
  assert (H2 : length (replicate 4 (@None string)) = 4%nat) by reflexivity.
  split_and!; [exact H1|exact H2|].
  assert (parse 100 4 (Some " ./a.out   -v x y ") (Some (mkInstruction None 0 None))
            (Some (replicate 4 None))
          = Done (Some (mkInstruction (Some "./a.out") 0 None),
                  Some [Some "./a.out"; Some "-v"; Some "x"; None])) as E
    by reflexivity.
  destruct (parse_tokens_shaped 100 4 _ _ _ _ _ H1 H2 E) as (H & _ & _).
  exact H.
Defined.

(** *** Decimal texts and [strtol] *)

Lemma isdigit_plain c :
  isdigit c = true →
  isspace c = false ∧ Ascii.eqb c "-" = false ∧ Ascii.eqb c "+" = false ∧
  Ascii.eqb c " " = false ∧ is_nul c = false.
Proof.
  intros Hd. split_and!.
  - unfold isdigit, isspace in *. apply andb_true_iff in Hd as [H1 H2].
    apply Nat.leb_le in H1, H2. apply orb_false_iff. split.
    + apply Nat.eqb_neq. lia.
    + apply andb_false_iff. right. apply Nat.leb_gt. lia.
  - destruct (Ascii.eqb_spec c "-") as [->|]; [discriminate Hd|done].
  - destruct (Ascii.eqb_spec c "+") as [->|]; [discriminate Hd|done].
  - destruct (Ascii.eqb_spec c " ") as [->|]; [discriminate Hd|done].
  - unfold is_nul. destruct (Ascii.eqb_spec c NUL) as [->|]; [discriminate Hd|done].
Qed.

Lemma read_digits_uint d acc :
  read_digits (NilEmpty.string_of_uint d) (Z.of_nat acc)
  = (Z.of_nat (Nat.of_uint_acc d acc),
     String.length (NilEmpty.string_of_uint d)).
Proof.
  revert acc.
  induction d as [|d IH|d IH|d IH|d IH|d IH|d IH|d IH|d IH|d IH|d IH];
    intros acc; [done|..];
    cbn [NilEmpty.string_of_uint read_digits Nat.of_uint_acc String.length];
    change (isdigit _) with true; cbn iota;
    match goal with
    | |- context [digit_value ?c] =>
        let v := eval vm_compute in (digit_value c) in
        change (digit_value c) with v
    end;
    match goal with
    | |- context [read_digits _ ?a] =>
        match goal with
        | |- context [Nat.of_uint_acc d ?n] =>
            replace a with (Z.of_nat n) by (rewrite Nat.tail_mul_spec; lia)
        end
    end; by rewrite IH.
Qed.

Lemma uint_string_shape d :
  all_digits (NilEmpty.string_of_uint d) = true.
Proof. induction d; simpl; auto. Qed.

Lemma to_uint_nonnil n : Nat.to_uint n ≠ Nil.
Proof.
  rewrite <- (DecimalNat.Unsigned.of_to n) at 1.
  rewrite DecimalNat.Unsigned.to_of. apply DecimalFacts.unorm_nonnil.
Qed.

Lemma decimal_of_nat_head n :
  ∃ c r, decimal_of_nat n = String c r ∧ isdigit c = true ∧ all_digits r = true.
Proof.
  unfold decimal_of_nat. pose proof (to_uint_nonnil n) as Hn.
  pose proof (uint_string_shape (Nat.to_uint n)) as Hd.
  destruct (Nat.to_uint n); [done|..]; simpl in *; by eexists _, _.
Qed.

Lemma read_digits_decimal n :
  read_digits (decimal_of_nat n) 0
  = (Z.of_nat n, String.length (decimal_of_nat n)).
Proof.
  unfold decimal_of_nat. rewrite (read_digits_uint _ 0).
  change (Nat.of_uint_acc (Nat.to_uint n) 0) with (Nat.of_uint (Nat.to_uint n)).
  by rewrite DecimalNat.Unsigned.of_to.
Qed.

Lemma strtol_decimal z :
  strtol (decimal_of_Z z) = (clamp_long z, String.length (decimal_of_Z z)).
Proof.
  unfold decimal_of_Z.
  destruct (decimal_of_nat_head (Z.abs_nat z)) as (c & r & E & Hc & _).
  pose proof (read_digits_decimal (Z.abs_nat z)) as Hr. rewrite E in Hr.
  destruct (isdigit_plain c Hc) as (Hsp & Hm & Hp & _).
  destruct (z <? 0) eqn:Hz; rewrite E; unfold strtol.
  - cbn [skip_isspace]. change (isspace "-") with false. cbn iota.
    cbn [string_drop char_at]. change (Ascii.eqb "-" "-") with true.
    cbn [orb string_drop]. rewrite Hr. cbn [String.length].
    apply Z.ltb_lt in Hz. do 2 f_equal. lia.
  - cbn [skip_isspace]. rewrite Hsp. cbn [string_drop char_at].
    rewrite Hm, Hp. cbn [orb string_drop]. rewrite Hr. cbn [String.length].
    apply Z.ltb_ge in Hz. do 2 f_equal. lia.
Qed.

Lemma char_at_length s : char_at s (String.length s) = NUL.
Proof. induction s as [|c r IH]; simpl; auto. Qed.

Lemma decimal_of_Z_length z : String.length (decimal_of_Z z) ≠ O.
Proof.
  unfold decimal_of_Z.
  destruct (decimal_of_nat_head (Z.abs_nat z)) as (c & r & -> & _).
  by destruct (z <? 0).
Qed.

Lemma parse_id_token_decimal z name x :
  contains (Some name) instructs_with_id = true →
  parse_id_token (Some (decimal_of_Z z)) (Some name) (Some x)
  = (true, Some (int_of_long (clamp_long z))).
Proof.
  intros Hc. unfold parse_id_token. rewrite Hc. simpl negb. cbn iota.
  rewrite strtol_decimal, char_at_length.
  change (is_nul NUL) with true. simpl negb. simpl orb.
  pose proof (decimal_of_Z_length z) as Hl.
  by destruct (String.length (decimal_of_Z z)).
Qed.

Lemma int_of_long_in_range z : INT_MIN ≤ z ≤ INT_MAX → int_of_long z = z.
Proof.
  unfold INT_MIN, INT_MAX, int_of_long. intros H.
  rewrite Z.mod_small by lia. lia.
Qed.

Lemma clamp_long_in_range z : LONG_MIN ≤ z ≤ LONG_MAX → clamp_long z = z.
Proof.
  unfold clamp_long. intros H.
  destruct (Z.ltb_spec z LONG_MIN); [lia|].
  destruct (Z.ltb_spec LONG_MAX z); [lia|done].
Qed.

(** X7: [parse_id_token] does no range check. For an id-bearing
    instruction and the decimal text of any integer [z] it returns true;
    the id is [z] clamped to the range of [long] and then narrowed to
    [int]: -1 for every [z] above [LONG_MAX], 0 for every [z] below
    [LONG_MIN]. *)
Theorem parse_id_token_any_magnitude z name x :
  contains (Some name) instructs_with_id = true →
  parse_id_token (Some (decimal_of_Z z)) (Some name) (Some x)
  = (true, Some (int_of_long (clamp_long z))) ∧
  (LONG_MAX < z → int_of_long (clamp_long z) = -1) ∧
  (z < LONG_MIN → int_of_long (clamp_long z) = 0).
Proof.
  intros Hc. split_and!; [by apply parse_id_token_decimal|..];
    intros H; unfold clamp_long.
  - destruct (Z.ltb_spec z LONG_MIN); [unfold LONG_MIN, LONG_MAX in *; lia|].
    destruct (Z.ltb_spec LONG_MAX z); [reflexivity|lia].
  - destruct (Z.ltb_spec z LONG_MIN); [reflexivity|lia].
Qed.

Lemma parse_id_token_any_magnitude_witness :
  contains (Some "cancel") instructs_with_id = true ∧
  decimal_of_Z (-7) = "-7" ∧
  parse_id_token (Some "-7") (Some "cancel") (Some 0) = (true, Some (-7)).
Proof.
  assert (H1 : contains (Some "cancel") instructs_with_id = true) by reflexivity.
  split_and!; [exact H1|reflexivity|].
  destruct (parse_id_token_any_magnitude (-7) "cancel" 0 H1) as (H & _ & _).
  exact H.
Defined.

(** *** Lines made of two tokens *)

Lemma c_string_id s : no_nul s = true → c_string s = s.
Proof.
  induction s as [|c r IH]; simpl; [done|].
  intros [Hc Hr]%andb_true_iff. apply negb_true_iff in Hc.
  rewrite Hc. f_equal. auto.
Qed.

Lemma no_nul_app a b : no_nul (a +:+ b) = no_nul a && no_nul b.
Proof.
  induction a as [|c r IH]; [done|]. rewrite append_cons. simpl.
  by rewrite IH, andb_assoc.
Qed.

Lemma word_before_space a r :
  no_space a = true →
  word (a +:+ String " " r) = a ∧ after_word (a +:+ String " " r) = r.
Proof.
  induction a as [|c a IH]; [done|]. rewrite append_cons. simpl.
  intros [Hc Ha]%andb_true_iff. apply negb_true_iff in Hc. rewrite Hc.
  destruct (IH Ha) as [-> ->]. done.
Qed.

Lemma word_whole a : no_space a = true → word a = a ∧ after_word a = "".
Proof.
  induction a as [|c a IH]; [done|]. simpl.
  intros [Hc Ha]%andb_true_iff. apply negb_true_iff in Hc. rewrite Hc.
  destruct (IH Ha) as [-> ->]. done.
Qed.

Lemma tokens_single b : nonempty b = true → no_space b = true → tokens b = [b].
Proof.
  destruct b as [|c r]; [done|]. simpl.
  intros _ [Hc Hr]%andb_true_iff. apply negb_true_iff in Hc.
  rewrite tokens_nonspace by done. by destruct (word_whole r Hr) as [-> ->].
Qed.

Lemma tokens_first a r :
  nonempty a = true → no_space a = true →
  tokens (a +:+ String " " r) = a :: tokens r.
Proof.
  destruct a as [|c a]; [done|]. simpl.
  intros _ [Hc Ha]%andb_true_iff. apply negb_true_iff in Hc.
  rewrite append_cons, tokens_nonspace by done.
  by destruct (word_before_space a r Ha) as [-> ->].
Qed.

Lemma line_tokens_two a b :
  token_shaped a → token_shaped b → line_tokens (a +:+ " " +:+ b) = [a; b].
Proof.
  intros (Ha1 & Ha2 & Ha3) (Hb1 & Hb2 & Hb3). unfold line_tokens.
  change (" " +:+ b) with (String " " b).
  rewrite c_string_id by (rewrite no_nul_app, Ha3; simpl; by rewrite Hb3).
  by rewrite tokens_first, tokens_single.
Qed.

Lemma all_digits_shape s :
  all_digits s = true → no_space s = true ∧ no_nul s = true.
Proof.
  induction s as [|c r IH]; [done|]. simpl.
  intros [Hc Hr]%andb_true_iff.
  destruct (isdigit_plain c Hc) as (_ & _ & _ & Hs & Hn).
  destruct (IH Hr) as [-> ->]. by rewrite Hs, Hn.
Qed.

Lemma decimal_of_Z_shaped z : token_shaped (decimal_of_Z z).
Proof.
  unfold decimal_of_Z.
  destruct (decimal_of_nat_head (Z.abs_nat z)) as (c & r & -> & Hc & Hr).
  destruct (isdigit_plain c Hc) as (_ & _ & _ & Hs & Hn).
  destruct (all_digits_shape r Hr) as [Hrs Hrn].
  destruct (z <? 0); split_and!; simpl; by rewrite ?Hs, ?Hn, ?Hrs, ?Hrn.
Qed.

Lemma id_bearing_shaped name : name ∈ instructs_with_id → token_shaped name.
Proof.
  intros Hin.
  repeat (apply elem_of_cons in Hin as [->|Hin]);
    [..|by apply elem_of_nil in Hin]; by split_and!.
Qed.

(** X8: ids round-trip through [parse]. For every id-bearing instruction
    and every integer [z] in the range of [int], the line made of the
    name, a space and the decimal text of [z] (fitting the scratch array)
    is parsed to that name, the id [z] and no file. *)
Theorem parse_decimal_round_trip MAXLINE MAXARGS name z inst (argv : slots) :
  (3 ≤ MAXARGS)%nat → length argv = MAXARGS →
  name ∈ instructs_with_id → INT_MIN ≤ z ≤ INT_MAX →
  fits MAXLINE (name +:+ " " +:+ decimal_of_Z z) →
  ∃ argv',
    parse MAXLINE MAXARGS (Some (name +:+ " " +:+ decimal_of_Z z)) (Some inst)
      (Some argv)
    = Done (Some (mkInstruction (Some name) z None), argv').
Proof.
  intros Hcap Hlen Hin Hz Hfit. rewrite parse_fitting by done.
  pose proof (id_bearing_shaped name Hin) as Hname.
  rewrite line_tokens_two by (done || apply decimal_of_Z_shaped).
  rewrite take_ge by (simpl; lia). unfold parsed. cbn [lookup list_lookup].
  rewrite parse_id_token_decimal.
  2:{ rewrite contains_with_id by apply Hname. by apply bool_decide_eq_true_2. }
  cbn [snd default]. rewrite clamp_long_in_range, int_of_long_in_range; [|done|].
  - by eexists.
  - unfold INT_MIN, INT_MAX, LONG_MIN, LONG_MAX in *. lia.
Qed.

Lemma parse_decimal_round_trip_witness :
  (3 ≤ 25)%nat ∧ length (replicate 25 (@None string)) = 25%nat ∧
  "suspend" ∈ instructs_with_id ∧ (INT_MIN ≤ -305 ≤ INT_MAX) ∧
  fits 100 ("suspend" +:+ " " +:+ decimal_of_Z (-305)) ∧
  ∃ argv',
    parse 100 25 (Some "suspend -305") (Some (mkInstruction None 0 None))
      (Some (replicate 25 None))
    = Done (Some (mkInstruction (Some "suspend") (-305) None), argv').
Proof.
  assert (H1 : (3 ≤ 25)%nat) by lia.
  assert (H2 : length (replicate 25 (@None string)) = 25%nat) by reflexivity.
  assert (H3 : "suspend" ∈ instructs_with_id)
    by (apply (bool_decide_unpack _); reflexivity).
  assert (H4 : INT_MIN ≤ -305 ≤ INT_MAX) by (unfold INT_MIN, INT_MAX; lia).
  assert (H5 : fits 100 ("suspend" +:+ " " +:+ decimal_of_Z (-305)))
    by (unfold fits; vm_compute; lia).
  refine (conj H1 (conj H2 (conj H3 (conj H4 (conj H5 _))))).
  exact (parse_decimal_round_trip 100 25 "suspend" (-305)
           (mkInstruction None 0 None) _ H1 H2 H3 H4 H5).
Defined.

(** *** Spacing *)

Lemma append_length s t :
  String.length (s +:+ t) = (String.length s + String.length t)%nat.
Proof.
  induction s as [|c r IH]; [done|]. rewrite append_cons. simpl. by rewrite IH.
Qed.

Lemma repeat_char_length c n : String.length (repeat_char c n) = n.
Proof. induction n; simpl; congruence. Qed.

Lemma fields_trailing s m :
  fields (s +:+ repeat_char " " m) = fields s ++ replicate m "".
Proof.
  induction s as [|c r IH].
  - rewrite append_nil. induction m as [|m IHm]; [done|]. simpl.
    rewrite IHm. done.
  - rewrite append_cons. simpl. rewrite IH.
    destruct (Ascii.eqb c " "); [done|].
    by destruct (fields_word r) as (t & -> & _).
Qed.

Lemma tokens_trailing s m : tokens (s +:+ repeat_char " " m) = tokens s.
Proof.
  unfold tokens. rewrite fields_trailing, List.filter_app.
  replace (List.filter nonempty (replicate m "")) with (@nil string)
    by (induction m; simpl; auto).
  apply app_nil_r.
Qed.

Lemma tokens_leading k s : tokens (repeat_char " " k +:+ s) = tokens s.
Proof. induction k as [|k IH]; [done|]. simpl. by rewrite append_cons, tokens_space. Qed.

Lemma c_string_leading k s :
  c_string (repeat_char " " k +:+ s) = repeat_char " " k +:+ c_string s.
Proof.
  induction k as [|k IH]; [done|]. simpl. rewrite !append_cons. simpl.
  by rewrite IH.
Qed.

Lemma c_string_trailing s m :
  ∃ m', c_string (s +:+ repeat_char " " m) = c_string s +:+ repeat_char " " m'.
Proof.
  induction s as [|c r (m' & IH)].
  - exists m. rewrite !append_nil. apply c_string_id.
    induction m; simpl; auto.
  - rewrite append_cons. simpl. destruct (is_nul c).
    + by exists O.
    + exists m'. by rewrite IH, append_cons.
Qed.

Lemma padded_line k m line :
  line_tokens (repeat_char " " k +:+ line +:+ repeat_char " " m)
  = line_tokens line ∧
  (String.length (c_string line)
   ≤ String.length (c_string (repeat_char " " k +:+ line +:+ repeat_char " " m)))%nat.
Proof.
  unfold line_tokens. rewrite c_string_leading.
  destruct (c_string_trailing line m) as [m' ->].
  rewrite tokens_leading, tokens_trailing, !append_length. split; [done|lia].
Qed.

(** X9: spacing does not matter to [parse]. Two lines that fit the scratch
    array and have the same tokens get the same result; in particular a
    line padded with spaces in front and at the end is parsed as the line
    itself. *)
Theorem parse_spacing_insensitive MAXLINE MAXARGS inst (argv : slots) :
  (3 ≤ MAXARGS)%nat → length argv = MAXARGS →
  (∀ line1 line2,
     fits MAXLINE line1 → fits MAXLINE line2 →
     line_tokens line1 = line_tokens line2 →
     parse MAXLINE MAXARGS (Some line1) (Some inst) (Some argv)
     = parse MAXLINE MAXARGS (Some line2) (Some inst) (Some argv)) ∧
  (∀ k m line,
     fits MAXLINE (repeat_char " " k +:+ line +:+ repeat_char " " m) →
     parse MAXLINE MAXARGS
       (Some (repeat_char " " k +:+ line +:+ repeat_char " " m))
       (Some inst) (Some argv)
     = parse MAXLINE MAXARGS (Some line) (Some inst) (Some argv)).
Proof.
  intros Hcap Hlen.
  assert (∀ line1 line2,
     fits MAXLINE line1 → fits MAXLINE line2 →
     line_tokens line1 = line_tokens line2 →
     parse MAXLINE MAXARGS (Some line1) (Some inst) (Some argv)
     = parse MAXLINE MAXARGS (Some line2) (Some inst) (Some argv)) as Hsame.
  { intros l1 l2 H1 H2 E. rewrite !parse_fitting by done. by rewrite E. }
  split; [exact Hsame|].
  intros k m line Hfit. destruct (padded_line k m line) as [E Hl].
  apply Hsame; [done| |done]. unfold fits in *. lia.
Qed.

Lemma parse_spacing_insensitive_witness :
  (3 ≤ 25)%nat ∧ length (replicate 25 (@None string)) = 25%nat ∧
  fits 100 "  run 7 " ∧
  parse 100 25 (Some "  run 7 ") (Some (mkInstruction None 0 None))
    (Some (replicate 25 None))
  = parse 100 25 (Some "run 7") (Some (mkInstruction None 0 None))
      (Some (replicate 25 None)).
Proof.
  assert (H1 : (3 ≤ 25)%nat) by lia.
  assert (H2 : length (replicate 25 (@None string)) = 25%nat) by reflexivity.
  assert (H3 : fits 100 "  run 7 ") by (unfold fits; simpl; lia).
  split_and!; [exact H1|exact H2|exact H3|].
  destruct (parse_spacing_insensitive 100 25 (mkInstruction None 0 None)
              _ H1 H2) as [_ Hpad].
  exact (Hpad 2%nat 1%nat "run 7" H3).
Defined.

(** *** Lines that fill the scratch array *)

(** Without a terminator in the array, [strtok] never gives NULL. *)
Lemma strtok_unterminated s : no_nul s = true → strtok s " " ≠ Done None.
Proof.
  induction s as [|c r IH]; intros Hs; [done|].
  apply no_nul_cons in Hs as [Hc Hr]. simpl.
  apply is_nul_false_iff in Hc. rewrite Hc.
  destruct (Ascii.eqb c " "); simpl; [by apply IH|].
  by destruct (strtok_scan r " ") as [[t sv]|].
Qed.

(** In an array without terminator the loop ends only for want of room:
    it has then seen [room + 1] further tokens. *)
Lemma store_tokens_unterminated room s1 s2 t index (argv av : slots) :
  no_nul s1 = true →
  store_tokens room t s1 index argv = Done av →
  (room + 1 ≤ length (tokens (s1 +:+ s2)))%nat.
Proof.
  revert s1 t index argv.
  induction room as [|room IH]; intros s1 t index argv Hs H; simpl in H.
  - destruct (store argv index (string_copy (Some t))) as [a1|]; [|done].
    simpl in H. destruct (strtok s1 " ") as [next|] eqn:E; [|done].
    destruct next as [[t' save]|]; [|by apply strtok_unterminated in E].
    rewrite <- (append_empty_r s1) in E.
    apply (strtok_sound s1 s2 "" _ (or_introl eq_refl) Hs) in E
      as (s1' & _ & _ & ->). simpl. lia.
  - destruct (store argv index (string_copy (Some t))) as [a1|]; [|done].
    simpl in H. destruct (strtok s1 " ") as [next|] eqn:E; [|done].
    destruct next as [[t' save]|]; [|by apply strtok_unterminated in E].
    rewrite <- (append_empty_r s1) in E.
    apply (strtok_sound s1 s2 "" _ (or_introl eq_refl) Hs) in E
      as (s1' & -> & Hs' & ->).
    rewrite append_empty_r in H. simpl in H.
    apply IH in H; [|done]. simpl. lia.
Qed.

(** X10: [parse] copies [MAXLINE] characters into the array of [MAXLINE]
    characters. A line of [MAXLINE] or more characters therefore leaves
    the array without terminator, and unless the line has at least
    [MAXARGS] tokens the tokenizer reads past the end of the array. *)
Theorem parse_full_scratch_overrun MAXLINE MAXARGS line inst (argv : slots) :
  (MAXLINE ≤ String.length (c_string line))%nat →
  (length (line_tokens line) < MAXARGS)%nat →
  parse MAXLINE MAXARGS (Some line) (Some inst) (Some argv) = Overrun.
Proof.
  intros Hlong Hfew.
  destruct (parse MAXLINE MAXARGS (Some line) (Some inst) (Some argv))
    as [r|] eqn:E; [exfalso|done].
  unfold parse, initialize_argv_n in E.
  destruct (clear_slots MAXARGS 0 argv) as [a|]; [|done]. simpl in E.
  destruct (strncpy_full (c_string line) MAXLINE (c_string_no_nul line) Hlong)
    as (s2 & Ec & Hs & _).
  rewrite strncpy_c_string in E.
  destruct (strtok (strncpy (c_string line) MAXLINE) " ") as [first|] eqn:E1;
    [|done].
  destruct first as [[p_tok save]|]; [|by apply strtok_unterminated in E1].
  simpl in E. pose proof E1 as E1'.
  rewrite <- (append_empty_r (strncpy _ _)) in E1'.
  apply (strtok_sound _ s2 "" _ (or_introl eq_refl) Hs) in E1'
    as (s1' & -> & Hs' & Htok).
  rewrite append_empty_r in E.
  destruct (store_tokens (MAXARGS - 1 - 1) p_tok s1' 0 a) as [av|] eqn:E2;
    [|done].
  apply (store_tokens_unterminated _ _ s2) in E2; [|done].
  unfold line_tokens in Hfew. rewrite Ec, Htok in Hfew. simpl in Hfew. lia.
Qed.

Lemma parse_full_scratch_overrun_witness :
  (8 ≤ String.length (c_string "cancel 12"))%nat ∧
  (length (line_tokens "cancel 12") < 25)%nat ∧
  parse 8 25 (Some "cancel 12") (Some (mkInstruction None 0 None))
    (Some (replicate 25 None)) = Overrun.
Proof.
  assert (H1 : (8 ≤ String.length (c_string "cancel 12"))%nat) by (simpl; lia).
  assert (H2 : (length (line_tokens "cancel 12") < 25)%nat)
    by (vm_compute; lia).
  split_and!; [exact H1|exact H2|].
  exact (parse_full_scratch_overrun 8 25 "cancel 12" _ _ H1 H2).
Defined.
